(** * Tree comparison and edit-script generation (scripts/processing.py)

    A shallow embedding of the comparison core of the semi-structured
    document differencing tool: the word-level Wagner-Fisher distance, the
    subtree extractor, the subtree indexer, the node/tree distance, the
    flattener, the edit script generator, the driver [run] and the patcher.

    Python values are modelled as follows.
    - A node [[parent_tag, label, depth]] (with a fourth [text] field under
      the 'wagner' preprocessing) is the record [Node]; a label is a tag
      string or an attribute pair [[name, value]].
    - Python [int] is [Z]; the floats of [treeDist] only ever take the values
      0.0, 1.0, 2.0 and [inf], and are the type [Cost].
    - Python lists are Rocq lists, [l.append(x)] is [l ++ [x]].
    - A [dict] is an insertion-ordered association list with distinct keys.
    - Exceptions are the outcome [Exc]; the only unbounded loop ([toList])
      takes fuel and reports [OutOfFuel] when it is exhausted. *)

From Stdlib Require Import ZArith Ascii String.
From stdpp Require Import base list strings pretty.

Open Scope Z_scope.
Open Scope string_scope.
Open Scope list_scope.

(** ** Outcomes of a Python call *)

Inductive PyExc : Type :=
| IndexError
| KeyError
| TypeError
| UnboundLocalError.

(** The class name Python reports for an exception. *)
Definition exc_name (e : PyExc) : string :=
  match e with
  | IndexError => "IndexError"
  | KeyError => "KeyError"
  | TypeError => "TypeError"
  | UnboundLocalError => "UnboundLocalError"
  end.

Inductive Res (A : Type) : Type :=
| Ret (a : A)
| Exc (e : PyExc)
| OutOfFuel.

Arguments Ret {A} a.
Arguments Exc {A} e.
Arguments OutOfFuel {A}.

Definition res_bind {A B : Type} (f : A -> Res B) (m : Res A) : Res B :=
  match m with
  | Ret a => f a
  | Exc e => Exc e
  | OutOfFuel => OutOfFuel
  end.

#[global] Instance Res_ret : MRet Res := fun A a => Ret a.
#[global] Instance Res_bind : MBind Res := fun A B f m => res_bind f m.
#[global] Instance Res_fmap : FMap Res := fun A B f m => res_bind (fun a => Ret (f a)) m.

(** ** Node model *)

Inductive Label : Type :=
| Tag (s : string)
| Attr (name value : string).

Record Node : Type := mkNode {
  parentLabel : string;
  label : Label;
  depth : Z;
  text : option string
}.

Abbreviation Tree := (list Node).
Abbreviation Fragment := (list Node).

#[global] Instance Label_eq_dec : EqDecision Label.
Proof. solve_decision. Defined.

#[global] Instance Node_eq_dec : EqDecision Node.
Proof. solve_decision. Defined.

(** [l[i]] on a Python list: [IndexError] when out of range (only
    non-negative indices are used by the code). *)
Definition py_index {A : Type} (l : list A) (i : nat) : Res A :=
  match l !! i with
  | Some x => Ret x
  | None => Exc IndexError
  end.

(** Truthiness of a list and of a string. *)
Definition list_truthy {A : Type} (l : list A) : bool :=
  match l with
  | [] => false
  | _ :: _ => true
  end.

Definition str_truthy (s : string) : bool :=
  match s with
  | EmptyString => false
  | String _ _ => true
  end.

(** ** Subtree Extractor: [subTrees(tree, subTrees)] *)

(** The body of [for node in tree], threading the three variables the loop
    mutates: [current_subtree], [current_level] and the output list. *)
Fixpoint subTrees_loop (nodes : list Node) (current_subtree : Fragment)
    (current_level : Z) (out : list Fragment) : list Fragment :=
  match nodes with
  | [] =>
      if list_truthy current_subtree then out ++ [current_subtree] else out
  | node :: rest =>
      if (current_level <=? depth node)%Z
      then subTrees_loop rest (current_subtree ++ [node]) current_level out
      else subTrees_loop rest [node] (depth node)
             (if list_truthy current_subtree
              then out ++ [current_subtree] else out)
  end.

(** [tree[0][2]] raises [IndexError] on the empty list before anything is
    appended to the output list. *)
Definition subTrees (tree : Tree) (out : list Fragment) : Res (list Fragment) :=
  first ← py_index tree 0;
  Ret (subTrees_loop tree [] (depth first) out).

(** ** Word Distance Calculator: [wagnerFisher] and [wfCostUpdate] *)

(** [str.isspace] on the code points below 256. *)
Definition is_space (c : ascii) : bool :=
  let n := nat_of_ascii c in
  ((9 <=? n)%nat && (n <=? 13)%nat) || ((28 <=? n)%nat && (n <=? 32)%nat)
  || (n =? 133)%nat || (n =? 160)%nat.

(** [s.split()]: maximal runs of non-whitespace characters, in order;
    [word] is the run being read. *)
Fixpoint split_go (s : string) (word : string) : list string :=
  match s with
  | EmptyString => if str_truthy word then [word] else []
  | String c s' =>
      if is_space c
      then (if str_truthy word then word :: split_go s' "" else split_go s' "")
      else split_go s' (word +:+ String c "")
  end.

Definition split (s : string) : list string := split_go s "".

(** [len(s)] as a Python integer. *)
Definition len (s : string) : Z := Z.of_nat (String.length s).

(** What [wagnerFisher] may be handed: a [str], or (from [compare_nodes],
    which passes the fourth element of a fragment) a node. *)
Inductive WFInput : Type :=
| WStr (s : string)
| WNode (n : Node).

(** [x.split() if isinstance(x, str) else []] *)
Definition words_of (x : WFInput) : list string :=
  match x with
  | WStr s => split s
  | WNode _ => []
  end.

Definition wfCostUpdate (wordA wordB : string) : Z :=
  if decide (wordA = wordB) then 1
  else Z.abs (len wordA - len wordB).

(** Two-dimensional integer tables.  Every index the loops below use is in
    range, so the defaults of [mat_get] and [word_at] are never returned. *)
Abbreviation Matrix := (list (list Z)).

Definition mat_get (m : Matrix) (i j : nat) : Z :=
  default 0 (m !! i ≫= fun row => row !! j).

Definition mat_set (m : Matrix) (i j : nat) (v : Z) : Matrix :=
  alter (fun row => <[j := v]> row) i m.

Definition word_at (words : list string) (i : nat) : string :=
  default "" (words !! i).

Definition min3 (a b c : Z) : Z := Z.min a (Z.min b c).

(** [range(1, n + 1)] *)
Definition range1 (n : nat) : list nat := seq 1 n.

Definition wagnerFisher (stringA stringB : WFInput) : Matrix * Z :=
  let wordsA := words_of stringA in
  let wordsB := words_of stringB in
  let M := length wordsA in
  let N := length wordsB in
  let Dist := replicate (S M) (replicate (S N) 0) in
  let Dist := mat_set Dist 0 0 0 in
  let Dist :=
    foldl (fun Dist i =>
             mat_set Dist i 0
               (mat_get Dist (i - 1) 0 + len (word_at wordsA (i - 1))))
          Dist (range1 M) in
  let Dist :=
    foldl (fun Dist j =>
             mat_set Dist 0 j
               (mat_get Dist 0 (j - 1) + len (word_at wordsB (j - 1))))
          Dist (range1 N) in
  let Dist :=
    foldl (fun Dist i =>
      foldl (fun Dist j =>
               mat_set Dist i j
                 (min3
                    (mat_get Dist (i - 1) (j - 1)
                     + wfCostUpdate (word_at wordsA (i - 1)) (word_at wordsB (j - 1)))
                    (mat_get Dist (i - 1) j + len (word_at wordsA (i - 1)))
                    (mat_get Dist i (j - 1) + len (word_at wordsB (j - 1)))))
            Dist (range1 N))
      Dist (range1 M) in
  (Dist, mat_get Dist M N).

(** ** Node/Tree Distance Calculator: [nodeDist] and [treeDist] *)

(** The float values of the cost matrix: a non-negative whole number or
    [float('inf')].  Every cell is a minimum whose first argument is 0.0 or
    1.0, so the only sums formed are 1.0 + 0.0 and 1.0 + 1.0, which are
    exact. *)
Inductive Cost : Type :=
| Finite (n : nat)
| Inf.

Definition cost_add (a b : Cost) : Cost :=
  match a, b with
  | Finite x, Finite y => Finite (x + y)
  | _, _ => Inf
  end.

Definition cost_min (a b : Cost) : Cost :=
  match a, b with
  | Finite x, Finite y => Finite (Nat.min x y)
  | Finite x, Inf => Finite x
  | Inf, b => b
  end.

Definition cost_min3 (a b c : Cost) : Cost := cost_min a (cost_min b c).

Definition is_list_label (l : Label) : bool :=
  match l with
  | Tag _ => false
  | Attr _ _ => true
  end.

(** [None] is Python's [None]. *)
Definition nodeDist (nodeA nodeB : option Node) : Cost :=
  match nodeA, nodeB with
  | Some a, Some b =>
      if is_list_label (label a) || is_list_label (label b)
      then (if decide (label a = label b) then Finite 0 else Finite 1)
      else (if decide (label a = label b) then Finite 0 else Finite 1)
  | _, _ => Finite 1
  end.

Abbreviation CostMatrix := (list (list Cost)).

Definition cm_get (m : CostMatrix) (i j : nat) : Cost :=
  default (Finite 0) (m !! i ≫= fun row => row !! j).

Definition cm_set (m : CostMatrix) (i j : nat) (v : Cost) : CostMatrix :=
  alter (fun row => <[j := v]> row) i m.

(** [costMatrix[-1][-1]] *)
Definition cm_last (m : CostMatrix) : Cost :=
  default (Finite 0) (last m ≫= last).

(** [range(n)] *)
Definition range0 (n : nat) : list nat := seq 0 n.

(** One assignment [costMatrix[i][j] = min(...)] of the inner loop.  [i] and
    [j] range over the positions of the two fragments, so [treeA !! i] and
    [treeB !! j] are the nodes [treeA[i]] and [treeB[j]]. *)
Definition treeDist_cell (treeA treeB : Fragment) (costMatrix : CostMatrix)
    (i j : nat) : CostMatrix :=
  let update_cost := nodeDist (treeA !! i) (treeB !! j) in
  let delete_cost := nodeDist (treeA !! i) None in
  let insert_cost := nodeDist None (treeB !! j) in
  cm_set costMatrix i j
    (cost_min3 update_cost
       (if (0 <? i)%nat then cost_add delete_cost (cm_get costMatrix (i - 1) j) else Inf)
       (if (0 <? j)%nat then cost_add insert_cost (cm_get costMatrix i (j - 1)) else Inf)).

Definition treeDist (treeA treeB : Fragment) : Cost :=
  if negb (list_truthy treeA) || negb (list_truthy treeB) then Inf
  else
    let costMatrix := replicate (length treeA) (replicate (length treeB) (Finite 0)) in
    let costMatrix :=
      foldl (fun costMatrix i =>
               foldl (fun costMatrix j => treeDist_cell treeA treeB costMatrix i j)
                     costMatrix (range0 (length treeB)))
            costMatrix (range0 (length treeA)) in
    cm_last costMatrix.

(** ** Python dictionaries

    Insertion-ordered association lists with distinct keys: assigning to an
    existing key replaces the value where it stands, assigning to a new key
    appends. *)

Section PyDict.
Context {K V : Type} `{EqDecision K}.

(** [d[k] = v] *)
Fixpoint dict_set (d : list (K * V)) (k : K) (v : V) : list (K * V) :=
  match d with
  | [] => [(k, v)]
  | (k', v') :: d' =>
      if decide (k = k') then (k, v) :: d' else (k', v') :: dict_set d' k v
  end.

Fixpoint dict_lookup (d : list (K * V)) (k : K) : option V :=
  match d with
  | [] => None
  | (k', v') :: d' => if decide (k = k') then Some v' else dict_lookup d' k
  end.

(** [d[k]] as an expression: [KeyError] when the key is absent. *)
Definition dict_get (d : list (K * V)) (k : K) : Res V :=
  match dict_lookup d k with
  | Some v => Ret v
  | None => Exc KeyError
  end.

End PyDict.

(** ** Named-Tree Map *)

Record Entry : Type := mkEntry {
  parent : string;
  tree : Fragment;
  children : list string
}.

Abbreviation Dict := (list (string * Entry)%type).

(** ** Subtree Indexer: [rename(trees, index, parent, prefix, dictionary)] *)

(** [t[0][2]] *)
Definition base_depth (t : Fragment) : Res Z :=
  first ← py_index t 0;
  Ret (depth first).

(** [dictionary[parent]['children'].append(new_name)] *)
Definition append_child (dictionary : Dict) (key new_name : string) : Res Dict :=
  e ← dict_get dictionary key;
  Ret (dict_set dictionary key
         (mkEntry e.(parent) e.(tree) (e.(children) ++ [new_name]))).

(** [rename_at suffix index ...] is [rename(trees, index, ...)] where
    [suffix] is [trees[index:]]: the empty suffix is the case
    [index >= len(trees)], its head is [trees[index]], and the [for] loop
    walks the rest of it with [i] running from [index + 1].  The recursive
    call at position [i] receives [trees[i:]]. *)
Fixpoint rename_at (suffix : list Fragment) (index : nat)
    (parent prefix : string) (dictionary : Dict) {struct suffix} : Res Dict :=
  match suffix with
  | [] => Ret dictionary
  | current_tree :: later =>
      let new_name := prefix +:+ pretty index in
      let dictionary :=
        dict_set dictionary new_name (mkEntry parent current_tree []) in
      dictionary ←
        (if str_truthy parent
         then append_child dictionary parent new_name
         else Ret dictionary);
      (fix loop (rest : list Fragment) (i : nat) (dictionary : Dict)
           {struct rest} : Res Dict :=
         match rest with
         | [] => Ret dictionary
         | tree_i :: rest' =>
             depth_i ← base_depth tree_i;
             depth_cur ← base_depth current_tree;
             if (depth_cur <? depth_i)%Z
             then
               dictionary ← rename_at rest i new_name prefix dictionary;
               loop rest' (S i) dictionary
             else Ret dictionary
         end) later (S index) dictionary
  end.

Definition rename (trees : list Fragment) (index : nat)
    (parent prefix : string) (dictionary : Dict) : Res Dict :=
  rename_at (drop index trees) index parent prefix dictionary.

(** ** Cost Matrix Builder: [calculateCosts] *)

(** The inner dictionaries are keyed by [str(target_tree)]; the fragment
    itself stands for its printed form. *)
Abbreviation CostDict := (list (string * list (Fragment * Cost))%type).

Definition calculateCosts (dict_source : Dict) (trees_target : list Fragment)
    (dict_costs : CostDict) : CostDict :=
  foldl (fun dict_costs '(key, entry) =>
           let dict_costs := dict_set dict_costs key [] in
           let source_tree := entry.(tree) in
           foldl (fun dict_costs target_tree =>
                    let cost := treeDist source_tree target_tree in
                    dict_set dict_costs key
                      (dict_set (default [] (dict_lookup dict_costs key))
                                target_tree cost))
                 dict_costs trees_target)
        dict_costs dict_source.

(** ** Flattener: [toList] *)

(** The [while stack:] loop; the top of the stack is the end of the list.
    One unit of fuel is spent per iteration. *)
Fixpoint toList_loop (fuel : nat) (dictionary : Dict)
    (stack result : list string) : Res (list string) :=
  match last stack with
  | None => Ret result
  | Some current =>
      match fuel with
      | O => OutOfFuel
      | S fuel' =>
          e ← dict_get dictionary current;
          toList_loop fuel' dictionary
            (removelast stack ++ reverse e.(children))
            (result ++ [current])
      end
  end.

Definition toList (fuel : nat) (dictionary : Dict) : Res (list string) :=
  let stack :=
    (filter (fun kv => negb (str_truthy (snd kv).(parent))) dictionary).*1 in
  toList_loop fuel dictionary stack [].

(** ** Edit Script Generator: [generateEditScript] *)

Inductive OpKind : Type :=
| OpUpdate
| OpDelete
| OpInsert.

(** The string in the first component of an operation tuple. *)
Definition op_name (k : OpKind) : string :=
  match k with
  | OpUpdate => "update"
  | OpDelete => "delete"
  | OpInsert => "insert"
  end.

(** [(kind, source, target)]; [None] is Python's [None]. *)
Abbreviation EditOp := (OpKind * option Fragment * option Fragment)%type.
Abbreviation EditScript := (list EditOp).

#[global] Instance OpKind_eq_dec : EqDecision OpKind.
Proof. solve_decision. Defined.

(** [for x in l: s = f(s, x)], stopping at the first exception. *)
Fixpoint for_each {A S : Type} (f : S -> A -> Res S) (l : list A) (s : S) : Res S :=
  match l with
  | [] => Ret s
  | x :: l' => s' ← f s x; for_each f l' s'
  end.

(** [dist > 0] where [dist] is the distance table, a list: Python 3 refuses
    to order a list and an int. *)
Definition list_gt_int (dist : Matrix) (n : Z) : Res bool := Exc TypeError.

(** [compare_nodes] is called with two fragments, so [nodeA[1]] and
    [nodeA[3]] are their second and fourth nodes and [len(nodeA)] is the
    number of nodes. *)
Definition compare_nodes (algorithm : string) (nodeA nodeB : Fragment)
    (edit_script : EditScript) : Res EditScript :=
  a1 ← py_index nodeA 1;
  b1 ← py_index nodeB 1;
  if decide (a1 = b1) then Ret edit_script
  else if bool_decide (algorithm = "wagner")
          && (3 <? length nodeA)%nat && (3 <? length nodeB)%nat
  then
    a3 ← py_index nodeA 3;
    b3 ← py_index nodeB 3;
    let '(dist, _) := wagnerFisher (WNode a3) (WNode b3) in
    positive ← list_gt_int dist 0;
    if positive : bool
    then Ret (edit_script ++ [(OpUpdate, Some nodeA, Some nodeB)])
    else Ret edit_script
  else Ret (edit_script ++ [(OpUpdate, Some nodeA, Some nodeB)]).

(** [x in l] on lists of strings *)
Definition str_in (x : string) (l : list string) : bool := bool_decide (x ∈ l).

(** The first loop of [process_trees]. *)
Definition delete_pass (dictA : Dict) (listA listB : list string)
    (edit_script : EditScript) : Res EditScript :=
  for_each (fun edit_script nodeA =>
              if negb (str_in nodeA listB)
              then
                e ← dict_get dictA nodeA;
                Ret (edit_script ++ [(OpDelete, Some e.(tree), None)])
              else Ret edit_script)
           listA edit_script.

(** The second loop.  [nodeA] there is the variable the first loop left
    behind: the last element of [listA], unbound when [listA] is empty. *)
Definition insert_pass (algorithm : string) (dictA dictB : Dict)
    (listA listB : list string) (edit_script : EditScript) : Res EditScript :=
  for_each (fun edit_script nodeB =>
              if negb (str_in nodeB listA)
              then
                e ← dict_get dictB nodeB;
                Ret (edit_script ++ [(OpInsert, None, Some e.(tree))])
              else
                nodeA ← match last listA with
                        | Some nodeA => Ret nodeA
                        | None => Exc UnboundLocalError
                        end;
                eA ← dict_get dictA nodeA;
                eB ← dict_get dictB nodeB;
                compare_nodes algorithm eA.(tree) eB.(tree) edit_script)
           listB edit_script.

Definition process_trees (fuel : nat) (algorithm : string) (dictA dictB : Dict)
    (edit_script : EditScript) : Res EditScript :=
  listA ← toList fuel dictA;
  listB ← toList fuel dictB;
  edit_script ← delete_pass dictA listA listB edit_script;
  insert_pass algorithm dictA dictB listA listB edit_script.

Definition generateEditScript (fuel : nat) (treeA treeB : Dict)
    (algorithm : string) : Res EditScript :=
  process_trees fuel algorithm treeA treeB [].

(** ** Driver: [run] *)

(** The module-level variables [run] assigns. *)
Record Globals : Type := mkGlobals {
  dictA : Dict;
  dictB : Dict;
  subTreesA : list Fragment;
  subTreesB : list Fragment;
  dictCostsA : CostDict;
  dictCostsB : CostDict;
  ListofTreesA : list string;
  ListofTreesB : list string
}.

Definition run_globals (fuel : nat) (tree1 tree2 : Tree) (algorithm : string)
    : Res (Globals * EditScript) :=
  subTreesA ← subTrees tree1 [];
  subTreesB ← subTrees tree2 [];
  dictA ← rename subTreesA 0 "" "A" [];
  dictB ← rename subTreesB 0 "" "B" [];
  let dictCostsA := calculateCosts dictA subTreesB [] in
  let dictCostsB := calculateCosts dictB subTreesA [] in
  ListofTreesA ← toList fuel dictA;
  ListofTreesB ← toList fuel dictB;
  edit_script ← generateEditScript fuel dictA dictB algorithm;
  Ret (mkGlobals dictA dictB subTreesA subTreesB dictCostsA dictCostsB
         ListofTreesA ListofTreesB, edit_script).

Definition run (fuel : nat) (tree1 tree2 : Tree) (algorithm : string)
    : Res EditScript :=
  snd <$> run_globals fuel tree1 tree2 algorithm.

(** ** Patcher: [patch] *)

Definition patch (edit_script : EditScript) : list (option Fragment) :=
  foldl (fun final_tree '(operation, source, target) =>
           match operation with
           | OpUpdate => final_tree ++ [target]
           | OpInsert => final_tree ++ [target]
           | OpDelete => final_tree
           end)
        [] edit_script.

(** ** Vocabulary of the statements *)

Definition op_kind (op : EditOp) : OpKind := op.1.1.

(** The operation kinds of a script, in order. *)
Definition script_kinds (s : EditScript) : list OpKind := op_kind <$> s.

(** How many operations of one kind a script holds. *)
Definition count_kind (k : OpKind) (s : EditScript) : nat :=
  length (filter (fun op => op_kind op = k) s).

(** The fragments stored in a Named-Tree Map. *)
Definition stored_fragments (d : Dict) : list Fragment :=
  (fun kv => (snd kv).(tree)) <$> d.

(** Relabelling of a tree: [f] on the [label] field and [g] on the
    parent label of every node; depths and texts are kept. *)
Definition relabel_node (f : Label -> Label) (g : string -> string)
    (n : Node) : Node :=
  mkNode (g n.(parentLabel)) (f n.(label)) n.(depth) n.(text).

Definition relabel (f : Label -> Label) (g : string -> string)
    (t : Tree) : Tree :=
  relabel_node f g <$> t.

Definition Bijective {A : Type} (f : A -> A) : Prop :=
  exists f_inv : A -> A, (forall x, f_inv (f x) = x) /\ (forall y, f (f_inv y) = y).

(** The trees of the end-to-end scenario. *)
Definition node_a : Node := mkNode "0" (Tag "a") 0 None.
Definition node_a_end : Node := mkNode "a" (Tag "0") 1 None.
Definition node_b : Node := mkNode "a" (Tag "b") 1 None.
Definition node_b_end : Node := mkNode "b" (Tag "0") 2 None.

Definition scenario_source : Tree := [node_a; node_a_end].
Definition scenario_target : Tree := [node_a; node_b; node_b_end].

(** A relabelling that exchanges the tags [a] and [b]. *)
Definition swap_ab_str (s : string) : string :=
  if decide (s = "a") then "b" else if decide (s = "b") then "a" else s.

Definition swap_ab (l : Label) : Label :=
  match l with
  | Tag s => Tag (swap_ab_str s)
  | Attr n v => Attr n v
  end.

(** Shape of the extractor's output: the first fragment starts with the
    first node of the tree, and a second fragment, when there is one, starts
    strictly above the first fragment's base depth. *)
Definition decreasing_head (lvl : Z) (more : list Fragment) : Prop :=
  more = [] \/
  exists (m : Node) (f : Fragment) (more' : list Fragment),
    more = (m :: f) :: more' /\ (depth m < lvl)%Z.

(** What the spec expects of the scenario: a single insert carrying the
    fragment rooted at [b], no delete, no update, and the patched sequence
    holding exactly that fragment. *)
Definition scenario_expectation (s : EditScript) : Prop :=
  count_kind OpInsert s = 1%nat
  /\ count_kind OpDelete s = 0%nat
  /\ count_kind OpUpdate s = 0%nat
  /\ (OpInsert, None, Some [node_b; node_b_end]) ∈ s
  /\ patch s = [Some [node_b; node_b_end]].

(** The rule of the spec for deletes and inserts, on the fragments stored
    in the two maps, by value. *)
Definition deletes_by_value (S T : Dict) (script : EditScript) : Prop :=
  forall (k : string) (e : Entry),
    dict_lookup S k = Some e ->
    ((OpDelete, Some e.(tree), None) ∈ script
     <-> e.(tree) ∉ stored_fragments T).

Definition inserts_by_value (S T : Dict) (script : EditScript) : Prop :=
  forall (k : string) (e : Entry),
    dict_lookup T k = Some e ->
    ((OpInsert, None, Some e.(tree)) ∈ script
     <-> e.(tree) ∉ stored_fragments S).

(** Two maps that store the same fragment under different names, and two
    that store different fragments under the same name. *)
Definition map_A0_source : Dict := [("A0", mkEntry "" scenario_source [])].
Definition map_B0_source : Dict := [("B0", mkEntry "" scenario_source [])].
Definition map_X0_source : Dict := [("X0", mkEntry "" scenario_source [])].
Definition map_X0_target : Dict := [("X0", mkEntry "" scenario_target [])].

(** A cost matrix of [r] rows and [c] columns. *)
Definition cm_dims (r c : nat) (m : CostMatrix) : Prop :=
  length m = r /\ Forall (fun row => length row = c) m.

(** ** Vocabulary of the further statements *)

(** Every later fragment starts strictly below the base depth [lvl] of the
    fragment before it, and holds no node above its own first node. *)
Fixpoint descending_fragments (lvl : Z) (frags : list Fragment) : Prop :=
  match frags with
  | [] => True
  | f :: more =>
      exists (n : Node) (r : list Node),
        f = n :: r /\ (depth n < lvl)%Z
        /\ Forall (fun m => (depth n <= depth m)%Z) r
        /\ descending_fragments (depth n) more
  end.

(** The delete and insert operations of a list of identities. *)
Definition delete_ops (d : Dict) (names : list string) : EditScript :=
  (fun k => (OpDelete, tree <$> dict_lookup d k, None)) <$> names.

Definition insert_ops (d : Dict) (names : list string) : EditScript :=
  (fun k => (OpInsert, None, tree <$> dict_lookup d k)) <$> names.

(** Sum of the word lengths of a word list. *)
Definition total_len (words : list string) : Z :=
  foldr (fun w acc => (len w + acc)%Z) 0%Z words.

(** An integer table of [r] rows and [c] columns. *)
Definition mat_dims (r c : nat) (m : Matrix) : Prop :=
  length m = r /\ Forall (fun row => length row = c) m.

(** How many leading fragments of [frags] start strictly deeper than
    [lvl]. *)
Fixpoint deeper_run (lvl : Z) (frags : list Fragment) : nat :=
  match frags with
  | (n :: _) :: more =>
      if (lvl <? depth n)%Z then S (deeper_run lvl more) else 0%nat
  | _ => 0%nat
  end.

(** [k] is a key of [d]. *)
Definition is_key (d : Dict) (k : string) : Prop := is_Some (dict_lookup d k).

(** The keys of [d'] are those of [d] and the names of the [m] positions
    from [index] on. *)
Definition keys_grow (prefix : string) (d d' : Dict) (index m : nat) : Prop :=
  forall k : string,
    is_key d' k <->
    is_key d k \/ exists j : nat, (index <= j < index + m)%nat /\ k = prefix +:+ pretty j.

(** ** Linearizer: [preprocess_xml] and [get_tree_stats]
       (scripts/preprocessing.py) *)

(** A parsed XML element as [process_element] reads it: its [tag], its
    [text] ([None] when the element has none), its attributes [attrib] in
    document order and its child elements.  Documents are taken to hold
    elements only, without comments or processing instructions. *)
#[warning="-register-all"]
Inductive Element : Type :=
| Elem (tag : string) (etext : option string)
       (attrib : list (string * string)) (children : list Element).

(** [s.strip()] is truthy: some character of [s] is not whitespace. *)
Fixpoint has_non_space (s : string) : bool :=
  match s with
  | EmptyString => false
  | String c s' => negb (is_space c) || has_non_space s'
  end.

(** [element.text if element.text and element.text.strip() else ''] *)
Definition element_text (etext : option string) : string :=
  match etext with
  | Some s => if str_truthy s && has_non_space s then s else ""
  | None => ""
  end.

(** [process_element(element, parent_tag, current_depth)]: the nodes it
    appends to [arr], in order.  The fourth field of a node exists under the
    'wagner' algorithm only. *)
Fixpoint process_element (algorithm : string) (include_attributes : bool)
    (element : Element) (parent_tag : string) (current_depth : Z)
    {struct element} : list Node :=
  match element with
  | Elem tag etext attrib children =>
      let wagner := bool_decide (algorithm = "wagner") in
      let node_info :=
        mkNode parent_tag (Tag tag) current_depth
          (if wagner then Some (element_text etext) else None) in
      let attr_nodes :=
        if include_attributes && list_truthy attrib
        then (fun a : string * string =>
                mkNode tag (Attr a.1 a.2) (current_depth + 1)
                  (if wagner then Some a.2 else None)) <$> attrib
        else [] in
      let child_nodes :=
        (fix each_child (cs : list Element) : list Node :=
           match cs with
           | [] => []
           | child :: cs' =>
               process_element algorithm include_attributes child tag
                 (current_depth + 1)
               ++ each_child cs'
           end) children in
      let terminal :=
        if list_truthy children then []
        else [mkNode tag (Tag "0") (current_depth + 1)
                (if wagner then Some "" else None)] in
      [node_info] ++ attr_nodes ++ child_nodes ++ terminal
  end.

(** [preprocess_xml] on the root element of the parsed document. *)
Definition preprocess_xml (root : Element) (algorithm : string)
    (include_attributes : bool) : Tree :=
  process_element algorithm include_attributes root "0" 0.

(** [max(...)] of a sequence of integers; [None] stands for the
    [ValueError] Python raises on an empty sequence. *)
Definition py_max (l : list Z) : option Z :=
  match l with
  | [] => None
  | x :: l' => Some (foldl Z.max x l')
  end.

Record TreeStats : Type := mkTreeStats {
  max_depth : Z;
  total_nodes : nat;
  leaf_nodes : nat
}.

Definition get_tree_stats (elements : Tree) : option TreeStats :=
  max_depth ← py_max (depth <$> elements);
  Some (mkTreeStats max_depth (length elements)
          (length (filter (fun elem => label elem = Tag "0") elements))).

(** Counts over a document: its elements, its attributes, its elements
    without child, and the number of levels below an element. *)
Fixpoint count_elements (e : Element) : nat :=
  match e with
  | Elem _ _ _ children =>
      S ((fix each_child (cs : list Element) : nat :=
            match cs with
            | [] => 0%nat
            | child :: cs' => (count_elements child + each_child cs')%nat
            end) children)
  end.

Fixpoint count_attributes (e : Element) : nat :=
  match e with
  | Elem _ _ attrib children =>
      (length attrib
       + (fix each_child (cs : list Element) : nat :=
            match cs with
            | [] => 0
            | child :: cs' => count_attributes child + each_child cs'
            end) children)%nat
  end.

Fixpoint count_childless (e : Element) : nat :=
  match e with
  | Elem _ _ _ [] => 1%nat
  | Elem _ _ _ children =>
      (fix each_child (cs : list Element) : nat :=
         match cs with
         | [] => 0%nat
         | child :: cs' => (count_childless child + each_child cs')%nat
         end) children
  end.

Fixpoint height (e : Element) : Z :=
  match e with
  | Elem _ _ _ children =>
      (fix each_child (cs : list Element) : Z :=
         match cs with
         | [] => 0
         | child :: cs' => Z.max (1 + height child) (each_child cs')
         end) children
  end.

(** No element of the document has the tag ["0"], the label of the
    terminal markers. *)
Fixpoint no_zero_tag (e : Element) : Prop :=
  match e with
  | Elem tag _ _ children =>
      tag <> "0"
      /\ (fix each_child (cs : list Element) : Prop :=
            match cs with
            | [] => True
            | child :: cs' => no_zero_tag child /\ each_child cs'
            end) children
  end.

(** A small document: [<a x="1"><b/><c>t</c></a>]. *)
Definition doc_abc : Element :=
  Elem "a" None [("x", "1")]
    [Elem "b" None [] []; Elem "c" (Some "t") [] []].

(** ** Serializer: the element-building loop of [post]
       (scripts/postprocessing.py)

    [post] turns a node list into ElementTree elements and writes them to a
    file.  The loop that creates the elements is modelled; the final
    [tree.write] is not. *)

(** An element [post] created: its tag (the node's label), the position in
    [xml_elements] of the element it was attached to by [ET.SubElement]
    ([None] for an element made by [ET.Element]), and the text it was
    given. *)
Record XmlElement : Type := mkXml {
  xtag : Label;
  xparent : option nat;
  xtext : option string
}.

(** [l[i]] for a Python integer [i]: negative indices count from the end. *)
Definition py_index_Z {A : Type} (l : list A) (i : Z) : Res A :=
  if (0 <=? i)%Z then py_index l (Z.to_nat i)
  else if (- Z.of_nat (length l) <=? i)%Z
       then py_index l (Z.to_nat (Z.of_nat (length l) + i))
       else Exc IndexError.

(** The position a Python index denotes in a list of length [n]. *)
Definition index_position (n : nat) (i : Z) : nat :=
  if (0 <=? i)%Z then Z.to_nat i else Z.to_nat (Z.of_nat n + i).

(** [while node[0] != xml_elements[parent_index].tag: parent_index -= 1],
    one unit of fuel per iteration. *)
Fixpoint find_parent (fuel : nat) (xml_elements : list XmlElement)
    (parent_tag : string) (parent_index : Z) : Res Z :=
  e ← py_index_Z xml_elements parent_index;
  if bool_decide (Tag parent_tag = xtag e) then Ret parent_index
  else match fuel with
       | O => OutOfFuel
       | S fuel' => find_parent fuel' xml_elements parent_tag (parent_index - 1)
       end.

(** One iteration of [for node in arr], on the variables [xml_elements]
    and [root] ([None] while [root] is unbound, else the position of the
    element it names); [current_length] is [len(xml_elements)] at the start
    of every iteration.  The scan for the parent revisits at most twice the
    elements there are before it runs off the list. *)
Definition post_step (algorithm : string)
    (st : list XmlElement * option nat) (node : Node)
    : Res (list XmlElement * option nat) :=
  let '(xml_elements, root) := st in
  let current_length := Z.of_nat (length xml_elements) in
  let parent_tag := parentLabel node in
  let node_tag := label node in
  if bool_decide (parent_tag = "0")
  then Ret (xml_elements ++ [mkXml node_tag None None],
            Some (length xml_elements))
  else
    last_element ← py_index_Z xml_elements (current_length - 1);
    parent_index ←
      (if bool_decide (Tag parent_tag = xtag last_element)
       then Ret (current_length - 1)%Z
       else find_parent (2 * length xml_elements + 1) xml_elements parent_tag
              (current_length - 1));
    let parent := index_position (length xml_elements) parent_index in
    let child_text :=
      if bool_decide (algorithm = "wagner")
      then text node (* [len(node) > 3]: the node has its fourth field *)
      else None in
    Ret (xml_elements ++ [mkXml node_tag (Some parent) child_text], root).

(** The elements [post] holds when it reaches [ET.ElementTree(root)], with
    the position of [root]; [UnboundLocalError] when no root was made. *)
Definition post_elements (algorithm : string) (arr : list Node)
    : Res (list XmlElement * nat) :=
  st ← for_each (post_step algorithm) arr ([], None);
  match st.2 with
  | Some root => Ret (st.1, root)
  | None => Exc UnboundLocalError
  end.

(** Every node of [l] is a root (parent label ["0"]) or has, among the
    labels [seen] before it, the tag its parent label names. *)
Fixpoint parented (seen : list Label) (l : list Node) : Prop :=
  match l with
  | [] => True
  | n :: l' =>
      (parentLabel n = "0" \/ Tag (parentLabel n) ∈ seen)
      /\ parented (seen ++ [label n]) l'
  end.

(** [j] is the last position before [k] whose tag is [p]. *)
Definition nearest_parent (tags : list Label) (k : nat) (p : string) (j : nat)
    : Prop :=
  (j < k)%nat /\ tags !! j = Some (Tag p)
  /\ forall j', (j < j' < k)%nat -> tags !! j' <> Some (Tag p).

(** What [post] does with node [n] at position [k] when it made element
    [e] of it. *)
Definition attached (algorithm : string) (tags : list Label) (k : nat)
    (n : Node) (e : XmlElement) : Prop :=
  xtag e = label n
  /\ match xparent e with
     | None => parentLabel n = "0" /\ xtext e = None
     | Some j =>
         parentLabel n <> "0"
         /\ nearest_parent tags k (parentLabel n) j
         /\ xtext e = (if bool_decide (algorithm = "wagner") then text n else None)
     end.

(** * Properties *)

(** ** Subtree Extractor *)

Lemma subTrees_loop_concat (nodes : list Node) :
  forall (cur : Fragment) (lvl : Z) (out : list Fragment),
    concat (subTrees_loop nodes cur lvl out) = concat out ++ cur ++ nodes.
Proof.
  induction nodes as [|node rest IH]; intros cur lvl out; simpl.
  - destruct cur as [|c cur']; simpl.
    + by rewrite app_nil_r.
    + rewrite concat_app. simpl. by rewrite !app_nil_r.
  - destruct (lvl <=? depth node)%Z.
    + rewrite IH. by rewrite <- app_assoc.
    + rewrite IH. destruct cur as [|c cur']; simpl; [done|].
      rewrite concat_app. simpl. rewrite app_nil_r. by rewrite <- app_assoc.
Qed.

(** No fragment of the output is empty once the accumulator holds none. *)
Lemma subTrees_loop_nonempty (nodes : list Node) :
  forall (cur : Fragment) (lvl : Z) (out : list Fragment),
    Forall (fun f => f <> []) out ->
    Forall (fun f => f <> []) (subTrees_loop nodes cur lvl out).
Proof.
  induction nodes as [|node rest IH]; intros cur lvl out Hout; simpl.
  - destruct cur; simpl; [done|].
    apply Forall_app; split; [done|]. by repeat constructor.
  - destruct (lvl <=? depth node)%Z; apply IH; [done|].
    destruct cur; simpl; [done|].
    apply Forall_app; split; [done|]. by repeat constructor.
Qed.

(** C4. For every non-empty tree the Subtree Extractor returns a list of
    fragments whose concatenation, in order, is the original tree: the same
    nodes in the same order, none duplicated and none dropped.  (The
    fragments are moreover all non-empty.) *)
Theorem subTrees_partition (tree : Tree) (Hne : tree <> []) :
  exists frags : list Fragment,
    subTrees tree [] = Ret frags
    /\ concat frags = tree
    /\ Forall (fun f => f <> []) frags.
Proof.
  destruct tree as [|n rest]; [done|].
  eexists. split; [reflexivity|]. split.
  - by rewrite subTrees_loop_concat.
  - by apply subTrees_loop_nonempty.
Qed.

Lemma subTrees_partition_witness :
  exists frags : list Fragment,
    subTrees [node_b; node_a; node_a_end] [] = Ret frags
    /\ concat frags = [node_b; node_a; node_a_end]
    /\ Forall (fun f => f <> []) frags.
Proof. apply (subTrees_partition [node_b; node_a; node_a_end]). discriminate. Defined.

(** The witness tree really splits in two fragments. *)
Example subTrees_two_fragments :
  subTrees [node_b; node_a; node_a_end] [] = Ret [[node_b]; [node_a; node_a_end]].
Proof. reflexivity. Qed.

Lemma subTrees_loop_shape (nodes : list Node) :
  forall (c : Node) (cur : Fragment) (out : list Fragment),
    exists (frag : Fragment) (more : list Fragment),
      subTrees_loop nodes (c :: cur) (depth c) out = out ++ (c :: frag) :: more
      /\ decreasing_head (depth c) more.
Proof.
  induction nodes as [|node rest IH]; intros c cur out; simpl.
  - exists cur, []. split; [done|]. by left.
  - destruct (depth c <=? depth node)%Z eqn:Hle.
    + destruct (IH c (cur ++ [node]) out) as (frag & more & Heq & Hdec).
      by exists frag, more.
    + destruct (IH node [] (out ++ [c :: cur])) as (frag & more & Heq & _).
      exists cur, ((node :: frag) :: more). split.
      * etrans; [exact Heq|]. by rewrite <- app_assoc.
      * right. exists node, frag, more. split; [done|]. lia.
Qed.

Lemma subTrees_shape (n : Node) (rest : list Node) :
  exists (frag : Fragment) (more : list Fragment),
    subTrees (n :: rest) [] = Ret ((n :: frag) :: more)
    /\ decreasing_head (depth n) more.
Proof.
  destruct (subTrees_loop_shape rest n [] []) as (frag & more & Heq & Hdec).
  exists frag, more. split; [|done].
  unfold subTrees. simpl. rewrite Z.leb_refl. simpl. by rewrite Heq.
Qed.

(** ** Subtree Indexer on the extractor's output *)

(** Started at position 0 with no parent, on a list whose second fragment
    is not deeper than the first, the indexer names the first fragment and
    stops. *)
Lemma rename_decreasing (c : Node) (frag : Fragment) (more : list Fragment)
    (prefix : string) :
  decreasing_head (depth c) more ->
  rename ((c :: frag) :: more) 0 "" prefix []
  = Ret [(prefix +:+ "0", mkEntry "" (c :: frag) [])].
Proof.
  intros [->|(m & f & more' & -> & Hlt)]; unfold rename; simpl; [done|].
  destruct (depth c <? depth m)%Z eqn:E; [lia|done].
Qed.

(** ** Flattener on a one-entry map *)

Lemma toList_loop_empty (fuel : nat) (d : Dict) (result : list string) :
  toList_loop fuel d [] result = Ret result.
Proof. by destruct fuel. Qed.

Lemma toList_single (fuel : nat) (k : string) (f : Fragment) :
  toList (S fuel) [(k, mkEntry "" f [])] = Ret [k].
Proof.
  unfold toList. simpl. unfold dict_get. simpl.
  rewrite decide_True by done. simpl. apply toList_loop_empty.
Qed.

Lemma toList_single_no_fuel (k : string) (f : Fragment) :
  toList 0 [(k, mkEntry "" f [])] = OutOfFuel.
Proof. reflexivity. Qed.

(** ** Edit Script Generator on two one-entry maps with different names *)

Lemma generateEditScript_single (fuel : nat) (kA kB : string)
    (fA fB : Fragment) (algorithm : string) :
  kA <> kB ->
  generateEditScript (S fuel) [(kA, mkEntry "" fA [])] [(kB, mkEntry "" fB [])]
    algorithm
  = Ret [(OpDelete, Some fA, None); (OpInsert, None, Some fB)].
Proof.
  intros Hne. unfold generateEditScript, process_trees.
  rewrite !toList_single. simpl.
  unfold delete_pass, insert_pass, str_in. simpl.
  rewrite (bool_decide_eq_false_2 (kA ∈ [kB])) by (rewrite list_elem_of_singleton; done).
  simpl. unfold dict_get. simpl. rewrite decide_True by done. simpl.
  rewrite (bool_decide_eq_false_2 (kB ∈ [kA])) by (rewrite list_elem_of_singleton; congruence).
  simpl. unfold dict_get. simpl. by rewrite decide_True by done.
Qed.

(** ** The driver *)

(** What [run] leaves in its module-level variables for two non-empty
    trees: one identity per side, holding the first fragment. *)
Lemma run_globals_nonempty (fuel : nat) (n1 n2 : Node) (r1 r2 : list Node)
    (algorithm : string) :
  exists (f1 f2 : Fragment) (m1 m2 : list Fragment) (cA cB : CostDict),
    subTrees (n1 :: r1) [] = Ret ((n1 :: f1) :: m1)
    /\ subTrees (n2 :: r2) [] = Ret ((n2 :: f2) :: m2)
    /\ run_globals (S fuel) (n1 :: r1) (n2 :: r2) algorithm
       = Ret (mkGlobals [("A0", mkEntry "" (n1 :: f1) [])]
                        [("B0", mkEntry "" (n2 :: f2) [])]
                        ((n1 :: f1) :: m1) ((n2 :: f2) :: m2)
                        cA cB ["A0"] ["B0"],
              [(OpDelete, Some (n1 :: f1), None);
               (OpInsert, None, Some (n2 :: f2))]).
Proof.
  destruct (subTrees_shape n1 r1) as (f1 & m1 & H1 & D1).
  destruct (subTrees_shape n2 r2) as (f2 & m2 & H2 & D2).
  exists f1, f2, m1, m2. do 2 eexists. split; [done|]. split; [done|].
  unfold run_globals. rewrite H1, H2. simpl.
  rewrite (rename_decreasing n1 f1 m1 "A" D1).
  rewrite (rename_decreasing n2 f2 m2 "B" D2).
  simpl. rewrite !toList_single. simpl.
  rewrite generateEditScript_single by done. simpl. reflexivity.
Qed.

Lemma run_nonempty (fuel : nat) (n1 n2 : Node) (r1 r2 : list Node)
    (algorithm : string) :
  exists (f1 f2 : Fragment),
    run (S fuel) (n1 :: r1) (n2 :: r2) algorithm
    = Ret [(OpDelete, Some (n1 :: f1), None); (OpInsert, None, Some (n2 :: f2))].
Proof.
  destruct (run_globals_nonempty fuel n1 n2 r1 r2 algorithm)
    as (f1 & f2 & m1 & m2 & cA & cB & _ & _ & H).
  exists f1, f2. unfold run. by rewrite H.
Qed.

Lemma run_nonempty_no_fuel (n1 n2 : Node) (r1 r2 : list Node)
    (algorithm : string) :
  run 0 (n1 :: r1) (n2 :: r2) algorithm = OutOfFuel.
Proof.
  destruct (subTrees_shape n1 r1) as (f1 & m1 & H1 & D1).
  destruct (subTrees_shape n2 r2) as (f2 & m2 & H2 & D2).
  unfold run, run_globals. rewrite H1, H2. simpl.
  rewrite (rename_decreasing n1 f1 m1 "A" D1).
  rewrite (rename_decreasing n2 f2 m2 "B" D2).
  reflexivity.
Qed.

Lemma run_empty_source (fuel : nat) (tree2 : Tree) (algorithm : string) :
  run fuel [] tree2 algorithm = Exc IndexError.
Proof. reflexivity. Qed.

Lemma run_empty_target (fuel : nat) (n1 : Node) (r1 : list Node)
    (algorithm : string) :
  run fuel (n1 :: r1) [] algorithm = Exc IndexError.
Proof.
  destruct (subTrees_shape n1 r1) as (f1 & m1 & H1 & _).
  unfold run, run_globals. rewrite H1. reflexivity.
Qed.

(** The two passes of the generator decide by identity name. *)
Lemma delete_pass_names (dictA : Dict) (listB : list string) (listA : list string) :
  forall s : EditScript,
    Forall (fun k => is_Some (dict_lookup dictA k)) listA ->
    delete_pass dictA listA listB s
    = Ret (s ++ ((fun k => (OpDelete, tree <$> dict_lookup dictA k, None))
                   <$> filter (fun k => k ∉ listB) listA)).
Proof.
  unfold delete_pass, str_in.
  induction listA as [|k listA IH]; intros s Hall; simpl.
  - by rewrite app_nil_r.
  - apply Forall_cons in Hall as [[e He] Hall].
    rewrite filter_cons. case_bool_decide as Hin; case_decide; try done; simpl.
    + by apply IH.
    + unfold dict_get. rewrite He. simpl.
      rewrite IH by done. by rewrite <- app_assoc.
Qed.

Lemma insert_pass_disjoint (algorithm : string) (dictA dictB : Dict)
    (listA : list string) (listB : list string) :
  forall s : EditScript,
    Forall (fun k => k ∉ listA) listB ->
    Forall (fun k => is_Some (dict_lookup dictB k)) listB ->
    insert_pass algorithm dictA dictB listA listB s
    = Ret (s ++ ((fun k => (OpInsert, None, tree <$> dict_lookup dictB k))
                   <$> listB)).
Proof.
  unfold insert_pass, str_in.
  induction listB as [|k listB IH]; intros s Hdis Hall; simpl.
  - by rewrite app_nil_r.
  - apply Forall_cons in Hall as [[e He] Hall].
    apply Forall_cons in Hdis as [Hk Hdis].
    rewrite bool_decide_eq_false_2 by done. simpl.
    unfold dict_get. rewrite He. simpl.
    rewrite IH by done. by rewrite <- app_assoc.
Qed.

(** Whatever tree the extractor was given, the indexer started at position
    0 names the first fragment of its output and no other. *)
Lemma rename_after_subTrees (n : Node) (rest : list Node) (prefix : string) :
  exists (frag : Fragment) (more : list Fragment),
    subTrees (n :: rest) [] = Ret ((n :: frag) :: more)
    /\ rename ((n :: frag) :: more) 0 "" prefix []
       = Ret [(prefix +:+ "0", mkEntry "" (n :: frag) [])].
Proof.
  destruct (subTrees_shape n rest) as (frag & more & H & Hdec).
  exists frag, more. split; [done|]. by apply rename_decreasing.
Qed.

(** ** Empty input *)

(** C8, as the spec words it, fails: the exception raised on an empty tree
    is not an [EmptyTreeError] (the code defines no such class). *)
Lemma subTrees_empty_not_EmptyTreeError :
  ~ exists e : PyExc, subTrees [] [] = Exc e /\ exc_name e = "EmptyTreeError".
Proof. intros (e & He & Hname). unfold subTrees in He. simpl in He. by simplify_eq. Qed.

(** C8, amended. Given an empty tree the Subtree Extractor fails with
    Python's built-in [IndexError], raised by [tree[0]] before anything is
    appended to the output list whatever that list holds, and [run] passes
    the exception on to its caller, for an empty source tree as for an empty
    target tree. *)
Theorem subTrees_empty_IndexError :
  (forall out : list Fragment, subTrees [] out = Exc IndexError)
  /\ (forall (fuel : nat) (tree2 : Tree) (algorithm : string),
        run fuel [] tree2 algorithm = Exc IndexError)
  /\ (forall (fuel : nat) (n : Node) (rest : list Node) (algorithm : string),
        run fuel (n :: rest) [] algorithm = Exc IndexError).
Proof.
  split; [done|]. split.
  - apply run_empty_source.
  - apply run_empty_target.
Qed.

(** ** The edit script of [run] *)

(** C10. For every pair of non-empty trees and every algorithm string, [run]
    returns a script without any update: the flattened identity lists are
    [A0] and [B0], names built from the prefixes [A] and [B], no name of one
    list occurs in the other, and the script is one delete per source
    identity followed by one insert per target identity, each carrying the
    fragment stored under that identity. *)
Theorem run_never_updates (fuel : nat) (tree1 tree2 : Tree) (algorithm : string)
    (H1 : tree1 <> []) (H2 : tree2 <> []) :
  exists (g : Globals) (script : EditScript),
    run_globals (S fuel) tree1 tree2 algorithm = Ret (g, script)
    /\ run (S fuel) tree1 tree2 algorithm = Ret script
    /\ count_kind OpUpdate script = 0%nat
    /\ g.(ListofTreesA) = ["A" +:+ pretty 0%nat]
    /\ g.(ListofTreesB) = ["B" +:+ pretty 0%nat]
    /\ (forall a b : string,
          a ∈ g.(ListofTreesA) -> b ∈ g.(ListofTreesB) -> a <> b)
    /\ script
       = ((fun k => (OpDelete, tree <$> dict_lookup g.(dictA) k, None))
            <$> g.(ListofTreesA))
         ++ ((fun k => (OpInsert, None, tree <$> dict_lookup g.(dictB) k))
               <$> g.(ListofTreesB)).
Proof.
  destruct tree1 as [|n1 r1]; [done|]. destruct tree2 as [|n2 r2]; [done|].
  destruct (run_globals_nonempty fuel n1 n2 r1 r2 algorithm)
    as (f1 & f2 & m1 & m2 & cA & cB & _ & _ & H).
  eexists _, _. split; [exact H|]. split.
  { unfold run. by rewrite H. }
  split; [reflexivity|]. split; [reflexivity|]. split; [reflexivity|]. split.
  - simpl. intros a b Ha Hb.
    apply list_elem_of_singleton in Ha. apply list_elem_of_singleton in Hb.
    by subst.
  - reflexivity.
Qed.

Lemma run_never_updates_witness :
  exists (g : Globals) (script : EditScript),
    run_globals 1 scenario_source scenario_target "wagner" = Ret (g, script)
    /\ run 1 scenario_source scenario_target "wagner" = Ret script
    /\ count_kind OpUpdate script = 0%nat
    /\ g.(ListofTreesA) = ["A" +:+ pretty 0%nat]
    /\ g.(ListofTreesB) = ["B" +:+ pretty 0%nat]
    /\ (forall a b : string,
          a ∈ g.(ListofTreesA) -> b ∈ g.(ListofTreesB) -> a <> b)
    /\ script
       = ((fun k => (OpDelete, tree <$> dict_lookup g.(dictA) k, None))
            <$> g.(ListofTreesA))
         ++ ((fun k => (OpInsert, None, tree <$> dict_lookup g.(dictB) k))
               <$> g.(ListofTreesB)).
Proof.
  apply (run_never_updates 0 scenario_source scenario_target "wagner");
    discriminate.
Defined.

(** The self-diff of any non-empty tree: one delete and one insert of the
    same fragment. *)
Lemma run_self_diff (fuel : nat) (n : Node) (rest : list Node) (algorithm : string) :
  exists f : Fragment,
    run (S fuel) (n :: rest) (n :: rest) algorithm
    = Ret [(OpDelete, Some (n :: f), None); (OpInsert, None, Some (n :: f))].
Proof.
  destruct (run_globals_nonempty fuel n n rest rest algorithm)
    as (f1 & f2 & m1 & m2 & cA & cB & E1 & E2 & H).
  rewrite E1 in E2. simplify_eq. exists f2. unfold run. by rewrite H.
Qed.

(** C1, evaluated on the code. Comparing the two-node tree of the scenario
    with an identical copy of itself yields a script of two operations, a
    delete and an insert of the whole tree, because the identity [A0] of the
    source is looked up among the target's identity names, which all start
    with [B]. *)
Theorem self_diff_script :
  run 1 scenario_source scenario_source "nierman"
  = Ret [(OpDelete, Some scenario_source, None);
         (OpInsert, None, Some scenario_source)]
  /\ (exists s : EditScript,
        run 1 scenario_source scenario_source "nierman" = Ret s
        /\ count_kind OpDelete s = 1%nat
        /\ count_kind OpInsert s = 1%nat
        /\ count_kind OpUpdate s = 0%nat).
Proof.
  split; [reflexivity|]. eexists. split; [reflexivity|]. by vm_compute.
Qed.

(** ** End-to-end scenario *)

(** C3, as the spec words it, fails: the script of the scenario has a
    delete. *)
Lemma scenario_expectation_fails :
  ~ exists s : EditScript,
      run 1 scenario_source scenario_target "nierman" = Ret s
      /\ scenario_expectation s.
Proof.
  intros (s & Hrun & _ & Hdel & _).
  vm_compute in Hrun. injection Hrun as <-. vm_compute in Hdel. discriminate.
Qed.

(** C3, amended. For the source tree [a, end-of-a] and the target tree
    [a, b, end-of-b], under either algorithm, each tree is a single
    fragment; the script is one delete carrying the whole source fragment
    followed by one insert carrying the whole target fragment (the node [a]
    included), with no update; patching it yields a one-element sequence
    whose element is that whole target fragment. *)
Theorem scenario_script (fuel : nat) (algorithm : string) :
  subTrees scenario_source [] = Ret [scenario_source]
  /\ subTrees scenario_target [] = Ret [scenario_target]
  /\ run (S fuel) scenario_source scenario_target algorithm
     = Ret [(OpDelete, Some scenario_source, None);
            (OpInsert, None, Some scenario_target)]
  /\ count_kind OpInsert
       [(OpDelete, Some scenario_source, None);
        (OpInsert, None, Some scenario_target)] = 1%nat
  /\ count_kind OpDelete
       [(OpDelete, Some scenario_source, None);
        (OpInsert, None, Some scenario_target)] = 1%nat
  /\ count_kind OpUpdate
       [(OpDelete, Some scenario_source, None);
        (OpInsert, None, Some scenario_target)] = 0%nat
  /\ patch [(OpDelete, Some scenario_source, None);
            (OpInsert, None, Some scenario_target)]
     = [Some scenario_target].
Proof.
  split; [reflexivity|]. split; [reflexivity|]. split.
  - destruct (run_globals_nonempty fuel node_a node_a [node_a_end]
                [node_b; node_b_end] algorithm)
      as (f1 & f2 & m1 & m2 & cA & cB & E1 & E2 & H).
    vm_compute in E1. vm_compute in E2. simplify_eq.
    unfold run, scenario_source, scenario_target. by rewrite H.
  - by vm_compute.
Qed.

(** ** Relabelling *)

Lemma swap_ab_str_involutive (s : string) : swap_ab_str (swap_ab_str s) = s.
Proof. unfold swap_ab_str. repeat case_decide; by simplify_eq. Qed.

Lemma swap_ab_str_bijective : Bijective swap_ab_str.
Proof. exists swap_ab_str. split; apply swap_ab_str_involutive. Qed.

Lemma swap_ab_bijective : Bijective swap_ab.
Proof.
  exists swap_ab.
  split; intros [s|n v]; simpl; by rewrite ?swap_ab_str_involutive.
Qed.

(** Relabelling keeps a tree empty or non-empty; this is all the pipeline
    looks at besides depths. *)
Lemma relabel_cons (f : Label -> Label) (g : string -> string) (n : Node)
    (rest : list Node) :
  relabel f g (n :: rest) = relabel_node f g n :: relabel f g rest.
Proof. reflexivity. Qed.

(** C9. For every pair of trees, every bijection [f] on labels and every
    bijection [g] on parent labels, relabelling both trees yields the same
    outcome up to the payloads: when [run] returns, the two scripts have the
    same operation kinds in the same order (hence the same counts), and when
    it raises or runs out of fuel it does so on both sides alike. *)
Theorem relabel_same_structure (f : Label -> Label) (g : string -> string)
    (Hf : Bijective f) (Hg : Bijective g)
    (fuel : nat) (tree1 tree2 : Tree) (algorithm : string) :
  script_kinds <$> run fuel (relabel f g tree1) (relabel f g tree2) algorithm
  = script_kinds <$> run fuel tree1 tree2 algorithm.
Proof.
  destruct tree1 as [|n1 r1].
  { by rewrite !run_empty_source. }
  destruct tree2 as [|n2 r2].
  { rewrite relabel_cons. by rewrite !run_empty_target. }
  rewrite !relabel_cons. destruct fuel as [|fuel].
  { by rewrite !run_nonempty_no_fuel. }
  destruct (run_nonempty fuel n1 n2 r1 r2 algorithm) as (f1 & f2 & ->).
  destruct (run_nonempty fuel (relabel_node f g n1) (relabel_node f g n2)
              (relabel f g r1) (relabel f g r2) algorithm) as (f1' & f2' & ->).
  reflexivity.
Qed.

Lemma relabel_same_structure_witness :
  Bijective swap_ab /\ Bijective swap_ab_str
  /\ script_kinds <$> run 1 (relabel swap_ab swap_ab_str scenario_source)
                        (relabel swap_ab swap_ab_str scenario_target) "nierman"
     = script_kinds <$> run 1 scenario_source scenario_target "nierman".
Proof.
  split; [exact swap_ab_bijective|]. split; [exact swap_ab_str_bijective|].
  apply (relabel_same_structure swap_ab swap_ab_str
           swap_ab_bijective swap_ab_str_bijective).
Defined.

(** The relabelled scenario, evaluated: the kinds are [delete; insert] on
    both sides, and the relabelling did change the trees. *)
Example relabel_scenario_kinds :
  script_kinds <$> run 1 (relabel swap_ab swap_ab_str scenario_source)
                     (relabel swap_ab swap_ab_str scenario_target) "nierman"
  = Ret [OpDelete; OpInsert]
  /\ relabel swap_ab swap_ab_str scenario_target <> scenario_target.
Proof. split; [reflexivity|discriminate]. Qed.

(** ** Membership in the generator *)

(** C2, evaluated on the code. The generator tests the identity names, not
    the stored fragments: a fragment stored on both sides under the names
    [A0] and [B0] is deleted and inserted, and two different fragments
    stored under the same name [X0] are neither deleted nor inserted (they
    are compared, and reported as an update). Neither script follows the
    by-value rule. *)
Theorem generator_tests_names :
  generateEditScript 1 map_A0_source map_B0_source "nierman"
  = Ret [(OpDelete, Some scenario_source, None);
         (OpInsert, None, Some scenario_source)]
  /\ scenario_source ∈ stored_fragments map_B0_source
  /\ ~ deletes_by_value map_A0_source map_B0_source
         [(OpDelete, Some scenario_source, None);
          (OpInsert, None, Some scenario_source)]
  /\ generateEditScript 1 map_X0_source map_X0_target "nierman"
     = Ret [(OpUpdate, Some scenario_source, Some scenario_target)]
  /\ (scenario_source ∉ stored_fragments map_X0_target)
  /\ ~ deletes_by_value map_X0_source map_X0_target
         [(OpUpdate, Some scenario_source, Some scenario_target)].
Proof.
  split; [reflexivity|]. split; [by apply list_elem_of_singleton|]. split.
  { intros H. specialize (H "A0" _ eq_refl). simpl in H.
    destruct H as [H _]. apply H; [by left|].
    by apply list_elem_of_singleton. }
  split; [reflexivity|]. split.
  { intros H. apply list_elem_of_singleton in H. discriminate. }
  intros H. specialize (H "X0" _ eq_refl). simpl in H.
  destruct H as [_ H].
  assert (Hin : (OpDelete, Some scenario_source, None : option Fragment)
                ∈ [(OpUpdate, Some scenario_source, Some scenario_target)]).
  { apply H. intros Hin. apply list_elem_of_singleton in Hin. discriminate. }
  apply list_elem_of_singleton in Hin. discriminate.
Qed.

(** On the scenario the script of the code is also the one the by-value
    rule describes: the two stored fragments differ. *)
Lemma scenario_follows_by_value :
  deletes_by_value [("A0", mkEntry "" scenario_source [])]
                   [("B0", mkEntry "" scenario_target [])]
                   [(OpDelete, Some scenario_source, None);
                    (OpInsert, None, Some scenario_target)]
  /\ inserts_by_value [("A0", mkEntry "" scenario_source [])]
                      [("B0", mkEntry "" scenario_target [])]
                      [(OpDelete, Some scenario_source, None);
                       (OpInsert, None, Some scenario_target)].
Proof.
  split; intros k e Hk; simpl in Hk; case_decide; simplify_eq; simpl.
  - split; [|intros _; by left].
    intros _ Hin. apply list_elem_of_singleton in Hin. discriminate.
  - split; [|intros _; right; by left].
    intros _ Hin. apply list_elem_of_singleton in Hin. discriminate.
Qed.

(** ** Subtree Indexer on lists of several fragments *)

(** C5, evaluated on the code. On the two fragments the extractor returns
    for the tree [b@1, a@0, end-of-a@1], the indexer started at position 0
    names only the first: the second fragment receives no identity.  On
    three fragments of increasing base depth the third is indexed twice,
    first under [A1] and then again under [A0], so that [A2] is a child of
    both and the flattened list holds it twice. *)
Theorem rename_misses_and_repeats :
  subTrees [node_b; node_a; node_a_end] [] = Ret [[node_b]; [node_a; node_a_end]]
  /\ rename [[node_b]; [node_a; node_a_end]] 0 "" "A" []
     = Ret [("A0", mkEntry "" [node_b] [])]
  /\ rename [[node_a]; [node_b]; [node_b_end]] 0 "" "A" []
     = Ret [("A0", mkEntry "" [node_a] ["A1"; "A2"]);
            ("A1", mkEntry "A0" [node_b] ["A2"]);
            ("A2", mkEntry "A0" [node_b_end] [])]
  /\ (rename [[node_a]; [node_b]; [node_b_end]] 0 "" "A" [] ≫= toList 4)
     = Ret ["A0"; "A1"; "A2"; "A2"].
Proof. repeat split; reflexivity. Qed.

(** ** Word Distance Calculator *)

(** C6. The substitution cost of two words is 1 when they are equal and the
    absolute difference of their lengths otherwise; for the inputs ["a b"]
    and ["a b"] the calculator returns the total cost 2, not 0. *)
Theorem word_distance_costs :
  (forall a b : string,
     wfCostUpdate a b
     = if String.eqb a b then 1%Z
       else Z.abs (Z.of_nat (String.length a) - Z.of_nat (String.length b)))
  /\ snd (wagnerFisher (WStr "a b") (WStr "a b")) = 2%Z
  /\ snd (wagnerFisher (WStr "a b") (WStr "a b")) <> 0%Z.
Proof.
  split.
  - intros a b. unfold wfCostUpdate, len.
    destruct (String.eqb_spec a b); case_decide; done.
  - split; [reflexivity|]. by vm_compute.
Qed.

(** The whole table of that run, and a run with words of other lengths. *)
Example wagnerFisher_a_b_table :
  fst (wagnerFisher (WStr "a b") (WStr "a b")) = [[0; 1; 2]; [1; 1; 1]; [2; 1; 2]]%Z.
Proof. reflexivity. Qed.

Example wagnerFisher_non_str :
  wagnerFisher (WNode node_a) (WNode node_b) = ([[0%Z]], 0%Z).
Proof. reflexivity. Qed.

(** ** Tree Distance Calculator *)

Lemma cm_set_dims (r c i j : nat) (v : Cost) (m : CostMatrix) :
  cm_dims r c m -> cm_dims r c (cm_set m i j v).
Proof.
  intros [Hlen Hrows]. unfold cm_set. split.
  - by rewrite length_alter.
  - apply Forall_alter; [done|]. intros row _ Hrow. by rewrite length_insert.
Qed.

Lemma cm_last_set (r c : nat) (v : Cost) (m : CostMatrix) :
  cm_dims (S r) (S c) m -> cm_last (cm_set m r c v) = v.
Proof.
  intros [Hlen Hrows]. unfold cm_last, cm_set.
  rewrite last_lookup, length_alter, Hlen. simpl.
  rewrite list_lookup_alter_eq.
  destruct (m !! r) as [row|] eqn:Hrow.
  - simpl. rewrite Forall_lookup in Hrows. specialize (Hrows r row Hrow).
    rewrite last_lookup, length_insert, Hrows. simpl.
    rewrite list_lookup_insert_eq by lia. done.
  - apply lookup_ge_None in Hrow. lia.
Qed.

Lemma treeDist_cell_dims (r c i j : nat) (treeA treeB : Fragment) (m : CostMatrix) :
  cm_dims r c m -> cm_dims r c (treeDist_cell treeA treeB m i j).
Proof. intros H. unfold treeDist_cell. by apply cm_set_dims. Qed.

Lemma treeDist_row_dims (r c i : nat) (treeA treeB : Fragment) (js : list nat) :
  forall m : CostMatrix,
    cm_dims r c m ->
    cm_dims r c (foldl (fun m j => treeDist_cell treeA treeB m i j) m js).
Proof.
  induction js as [|j js IH]; intros m H; simpl; [done|].
  apply IH. by apply treeDist_cell_dims.
Qed.

Lemma treeDist_rows_dims (r c : nat) (treeA treeB : Fragment) (js ks : list nat) :
  forall m : CostMatrix,
    cm_dims r c m ->
    cm_dims r c
      (foldl (fun m i => foldl (fun m j => treeDist_cell treeA treeB m i j) m js)
             m ks).
Proof.
  induction ks as [|i ks IH]; intros m H; simpl; [done|].
  apply IH. by apply treeDist_row_dims.
Qed.

Lemma cost_min3_zero (x y : Cost) : cost_min3 (Finite 0) x y = Finite 0.
Proof. by destruct x, y. Qed.

Lemma nodeDist_same (n : Node) : nodeDist (Some n) (Some n) = Finite 0.
Proof. unfold nodeDist. destruct (_ || _); by rewrite decide_True. Qed.

(** The distance of two non-empty fragments is the value the last
    iteration of the two loops stores in the last cell. *)
Lemma treeDist_last_cell (treeA treeB : Fragment) (a b : Node) :
  last treeA = Some a -> last treeB = Some b ->
  exists x y : Cost,
    treeDist treeA treeB = cost_min3 (nodeDist (Some a) (Some b)) x y.
Proof.
  intros Ha Hb.
  assert (HlenA : exists r, length treeA = S r).
  { destruct treeA; [done|]. by eexists. }
  assert (HlenB : exists c, length treeB = S c).
  { destruct treeB; [done|]. by eexists. }
  destruct HlenA as [r Hr], HlenB as [c Hc].
  unfold treeDist.
  replace (list_truthy treeA) with true by (by destruct treeA).
  replace (list_truthy treeB) with true by (by destruct treeB).
  cbn [negb orb]. unfold range0. rewrite Hr, Hc.
  rewrite (seq_S c 0), (seq_S r 0). rewrite foldl_app. cbn [foldl Nat.add].
  rewrite foldl_app. cbn [foldl].
  set (m1 := foldl _ (replicate (S r) (replicate (S c) (Finite 0))) (seq 0 r)).
  set (m2 := foldl _ m1 (seq 0 c)).
  assert (Hdims : cm_dims (S r) (S c) m2).
  { apply treeDist_row_dims. apply treeDist_rows_dims. split.
    - by rewrite length_replicate.
    - apply Forall_replicate. by rewrite length_replicate. }
  unfold treeDist_cell at 1.
  rewrite (cm_last_set r c _ m2 Hdims).
  rewrite last_lookup, Hr in Ha. rewrite last_lookup, Hc in Hb.
  simpl in Ha, Hb. rewrite Ha, Hb. eauto.
Qed.

(** C7. The distance between a non-empty fragment and the empty fragment is
    infinite, and the distance between a non-empty fragment and itself is
    0. *)
Theorem treeDist_empty_and_self (f : Fragment) (Hne : f <> []) :
  treeDist f [] = Inf /\ treeDist f f = Finite 0.
Proof.
  split.
  - unfold treeDist. destruct f; [done|reflexivity].
  - destruct (last f) as [a|] eqn:Hlast.
    + destruct (treeDist_last_cell f f a a Hlast Hlast) as (x & y & ->).
      by rewrite nodeDist_same, cost_min3_zero.
    + apply last_None in Hlast. done.
Qed.

Lemma treeDist_empty_and_self_witness :
  treeDist scenario_target [] = Inf
  /\ treeDist scenario_target scenario_target = Finite 0.
Proof. apply (treeDist_empty_and_self scenario_target). discriminate. Defined.

(** The empty fragment is at infinite distance from every fragment, itself
    included. *)
Lemma treeDist_empty_left (f : Fragment) : treeDist [] f = Inf.
Proof. reflexivity. Qed.

(** Between non-empty fragments the distance is 0.0 or 1.0: the last cell
    is a minimum whose first argument is a node distance. *)
Lemma treeDist_at_most_one (treeA treeB : Fragment) :
  treeA <> [] -> treeB <> [] ->
  treeDist treeA treeB = Finite 0 \/ treeDist treeA treeB = Finite 1.
Proof.
  intros HA HB.
  destruct (last treeA) as [a|] eqn:Ha; [|by apply last_None in Ha].
  destruct (last treeB) as [b|] eqn:Hb; [|by apply last_None in Hb].
  destruct (treeDist_last_cell treeA treeB a b Ha Hb) as (x & y & ->).
  unfold nodeDist.
  destruct (_ || _), (decide (label a = label b)), x as [[|[|x]]|], y as [[|[|y]]|];
    simpl; auto.
Qed.

(** * Further properties of the comparison core *)

(** ** Subtree Extractor *)

Lemma subTrees_loop_out (nodes : list Node) :
  forall (cur : Fragment) (lvl : Z) (out : list Fragment),
    subTrees_loop nodes cur lvl out = out ++ subTrees_loop nodes cur lvl [].
Proof.
  induction nodes as [|node rest IH]; intros cur lvl out; simpl.
  - destruct (list_truthy cur); simpl; by rewrite ?app_nil_r.
  - destruct (lvl <=? depth node)%Z; [by apply IH|].
    rewrite IH. rewrite (IH _ _ (if list_truthy cur then [] ++ [cur] else [])).
    destruct (list_truthy cur); simpl; by rewrite ?app_nil_r, <- ?app_assoc.
Qed.

(** The output list is only appended to: the fragments of a tree come
    after whatever the list already held, and are the ones an empty list
    would receive. An empty tree raises whatever the list holds. *)
Theorem subTrees_appends (tree : Tree) (out : list Fragment) :
  subTrees tree out = (fun frags => out ++ frags) <$> subTrees tree [].
Proof.
  destruct tree as [|n rest]; [reflexivity|].
  unfold subTrees. simpl. rewrite Z.leb_refl.
  by rewrite (subTrees_loop_out rest [n] (depth n) out).
Qed.

Lemma subTrees_loop_above (nodes : list Node) :
  forall (c : Node) (cur : Fragment) (lvl : Z) (out : list Fragment),
    Forall (fun m => (lvl <= depth m)%Z) nodes ->
    subTrees_loop nodes (c :: cur) lvl out = out ++ [(c :: cur) ++ nodes].
Proof.
  induction nodes as [|node rest IH]; intros c cur lvl out Hall; simpl.
  - by rewrite app_nil_r.
  - apply Forall_cons in Hall as [Hn Hall].
    destruct (lvl <=? depth node)%Z eqn:E; [|lia].
    rewrite (IH c (cur ++ [node]) lvl out Hall). simpl.
    by rewrite <- app_assoc.
Qed.

Lemma subTrees_single_fragment_core (n : Node) (rest : list Node)
    (Hall : Forall (fun m => (depth n <= depth m)%Z) rest) :
  subTrees (n :: rest) [] = Ret [n :: rest].
Proof.
  unfold subTrees. simpl. rewrite Z.leb_refl.
  by rewrite (subTrees_loop_above rest n [] (depth n) [] Hall).
Qed.

(** A tree none of whose nodes lies above its first node is one fragment:
    the extractor returns the tree itself as the only fragment. *)
Theorem subTrees_single_fragment (n : Node) (rest : list Node)
    (Hall : Forall (fun m => (depth n <= depth m)%Z) rest) :
  subTrees (n :: rest) [] = Ret [n :: rest].
Proof. eapply subTrees_single_fragment_core; eassumption. Qed.

Lemma subTrees_single_fragment_witness :
  subTrees (node_a :: [node_b; node_b_end]) [] = Ret [node_a :: [node_b; node_b_end]].
Proof.
  apply (subTrees_single_fragment node_a [node_b; node_b_end]).
  repeat constructor; simpl; lia.
Defined.

Lemma subTrees_loop_descending (nodes : list Node) :
  forall (c : Node) (cur : Fragment) (out : list Fragment),
    Forall (fun m => (depth c <= depth m)%Z) cur ->
    exists (frag : Fragment) (more : list Fragment),
      subTrees_loop nodes (c :: cur) (depth c) out = out ++ (c :: frag) :: more
      /\ Forall (fun m => (depth c <= depth m)%Z) frag
      /\ descending_fragments (depth c) more.
Proof.
  induction nodes as [|node rest IH]; intros c cur out Hcur; simpl.
  - by exists cur, [].
  - destruct (depth c <=? depth node)%Z eqn:Hle.
    + destruct (IH c (cur ++ [node]) out) as (frag & more & Heq & Hfrag & Hdesc).
      { apply Forall_app; split; [done|]. repeat constructor. lia. }
      by exists frag, more.
    + destruct (IH node [] (out ++ [c :: cur])) as (frag & more & Heq & Hfrag & Hdesc);
        [done|].
      exists cur, ((node :: frag) :: more). split; [|split; [done|]].
      * etrans; [exact Heq|]. by rewrite <- app_assoc.
      * simpl. exists node, frag. repeat split; [lia|done|done].
Qed.

(** The fragments of a tree: the first starts with the first node of the
    tree, no fragment holds a node above its own first node, and the base
    depths strictly decrease from one fragment to the next. *)
Theorem subTrees_descending (n : Node) (rest : list Node) :
  exists (frag : Fragment) (more : list Fragment),
    subTrees (n :: rest) [] = Ret ((n :: frag) :: more)
    /\ Forall (fun m => (depth n <= depth m)%Z) frag
    /\ descending_fragments (depth n) more.
Proof.
  destruct (subTrees_loop_descending rest n [] []) as (frag & more & Heq & H1 & H2);
    [done|].
  exists frag, more. split; [|done].
  unfold subTrees. simpl. rewrite Z.leb_refl. simpl. by rewrite Heq.
Qed.

(** ** Tree Distance Calculator *)

Lemma cost_min3_first (k : nat) (b1 b2 : bool) (u v : Cost) :
  (k <= 1)%nat ->
  cost_min3 (Finite k)
    (if b1 then cost_add (Finite 1) u else Inf)
    (if b2 then cost_add (Finite 1) v else Inf)
  = Finite k.
Proof.
  intros Hk. destruct b1, b2, u as [x|], v as [y|]; simpl; f_equal; lia.
Qed.

Lemma treeDist_last_nodes_core (treeA treeB : Fragment) (a b : Node)
    (Ha : last treeA = Some a) (Hb : last treeB = Some b) :
  treeDist treeA treeB = if decide (label a = label b) then Finite 0 else Finite 1.
Proof.
  assert (HlenA : exists r, length treeA = S r).
  { destruct treeA; [done|]. by eexists. }
  assert (HlenB : exists c, length treeB = S c).
  { destruct treeB; [done|]. by eexists. }
  destruct HlenA as [r Hr], HlenB as [c Hc].
  unfold treeDist.
  replace (list_truthy treeA) with true by (by destruct treeA).
  replace (list_truthy treeB) with true by (by destruct treeB).
  cbn [negb orb]. unfold range0. rewrite Hr, Hc.
  rewrite (seq_S c 0), (seq_S r 0). rewrite foldl_app. cbn [foldl Nat.add].
  rewrite foldl_app. cbn [foldl].
  set (m1 := foldl _ (replicate (S r) (replicate (S c) (Finite 0))) (seq 0 r)).
  set (m2 := foldl _ m1 (seq 0 c)).
  assert (Hdims : cm_dims (S r) (S c) m2).
  { apply treeDist_row_dims. apply treeDist_rows_dims. split.
    - by rewrite length_replicate.
    - apply Forall_replicate. by rewrite length_replicate. }
  unfold treeDist_cell at 1.
  rewrite (cm_last_set r c _ m2 Hdims).
  rewrite last_lookup, Hr in Ha. rewrite last_lookup, Hc in Hb.
  simpl in Ha, Hb. rewrite Ha, Hb.
  assert (Hnd : nodeDist (Some a) (Some b)
                = if decide (label a = label b) then Finite 0 else Finite 1).
  { unfold nodeDist. by destruct (_ || _). }
  rewrite Hnd. cbn [nodeDist].
  destruct (decide (label a = label b)); by apply cost_min3_first; lia.
Qed.

(** The distance of two non-empty fragments only depends on their last
    nodes: it is 0.0 when these carry equal labels and 1.0 otherwise. *)
Theorem treeDist_last_nodes (treeA treeB : Fragment) (a b : Node)
    (Ha : last treeA = Some a) (Hb : last treeB = Some b) :
  treeDist treeA treeB = if decide (label a = label b) then Finite 0 else Finite 1.
Proof. eapply treeDist_last_nodes_core; eassumption. Qed.

Lemma treeDist_last_nodes_witness :
  treeDist scenario_source scenario_target
  = if decide (label node_a_end = label node_b_end) then Finite 0 else Finite 1.
Proof.
  apply (treeDist_last_nodes scenario_source scenario_target node_a_end node_b_end);
    reflexivity.
Defined.

(** The distance is symmetric. *)
Theorem treeDist_sym (treeA treeB : Fragment) :
  treeDist treeA treeB = treeDist treeB treeA.
Proof.
  destruct (last treeA) as [a|] eqn:Ha.
  - destruct (last treeB) as [b|] eqn:Hb.
    + rewrite (treeDist_last_nodes_core treeA treeB a b Ha Hb).
      rewrite (treeDist_last_nodes_core treeB treeA b a Hb Ha).
      destruct (decide (label a = label b)), (decide (label b = label a)); congruence.
    + apply last_None in Hb. subst. by destruct treeA.
  - apply last_None in Ha. subst. by destruct treeB.
Qed.

(** ** Patcher *)

Lemma patch_foldl (s : EditScript) :
  forall acc : list (option Fragment),
    foldl (fun final_tree '(operation, source, target) =>
             match operation with
             | OpUpdate => final_tree ++ [target]
             | OpInsert => final_tree ++ [target]
             | OpDelete => final_tree
             end) acc s
    = acc ++ (snd <$> filter (fun op => op_kind op <> OpDelete) s).
Proof.
  induction s as [|[[k src] tgt] s IH]; intros acc; simpl.
  - by rewrite app_nil_r.
  - rewrite IH, filter_cons. unfold op_kind at 1. simpl.
    destruct k; case_decide; try done; simpl; by rewrite <- ?app_assoc.
Qed.

Lemma patch_targets_core (s : EditScript) :
  patch s = snd <$> filter (fun op => op_kind op <> OpDelete) s.
Proof. unfold patch. by rewrite patch_foldl. Qed.

(** The patched sequence is made of the target components of the updates
    and inserts of the script, in script order; deletes leave no trace and
    source components are never looked at. *)
Theorem patch_targets (s : EditScript) :
  patch s = snd <$> filter (fun op => op_kind op <> OpDelete) s.
Proof. eapply patch_targets_core; eassumption. Qed.

(** Patching a concatenation of scripts concatenates the patched
    sequences, and the length of the result is the number of updates plus
    the number of inserts. *)
Theorem patch_app_length (s1 s2 : EditScript) :
  patch (s1 ++ s2) = patch s1 ++ patch s2
  /\ length (patch s1) = (count_kind OpUpdate s1 + count_kind OpInsert s1)%nat.
Proof.
  split.
  - by rewrite !patch_targets_core, filter_app, fmap_app.
  - rewrite patch_targets_core, length_fmap. unfold count_kind.
    induction s1 as [|[[k src] tgt] s1 IH]; [done|].
    rewrite !filter_cons. unfold op_kind at 1 3 5. simpl.
    destruct k; repeat case_decide; try done; simpl; lia.
Qed.

(** Patching what [run] returns for two non-empty trees gives a sequence
    of one element, the first fragment of the target tree, whatever the
    source tree is. *)
Theorem patch_run (fuel : nat) (n1 n2 : Node) (r1 r2 : list Node)
    (algorithm : string) :
  exists (f2 : Fragment) (m2 : list Fragment),
    subTrees (n2 :: r2) [] = Ret ((n2 :: f2) :: m2)
    /\ patch <$> run (S fuel) (n1 :: r1) (n2 :: r2) algorithm
       = Ret [Some (n2 :: f2)].
Proof.
  destruct (run_globals_nonempty fuel n1 n2 r1 r2 algorithm)
    as (f1 & f2 & m1 & m2 & cA & cB & _ & E2 & H).
  exists f2, m2. split; [done|]. unfold run. by rewrite H.
Qed.

(** ** Word Distance Calculator *)

(** Substituting a word costs nothing exactly when the two words differ
    and have the same length; the cost is never negative and does not
    depend on the order of the two words. *)
Theorem wfCostUpdate_zero_iff (a b : string) :
  (wfCostUpdate a b = 0%Z <-> a <> b /\ String.length a = String.length b)
  /\ (0 <= wfCostUpdate a b)%Z
  /\ wfCostUpdate a b = wfCostUpdate b a.
Proof.
  unfold wfCostUpdate, len. split; [split|split].
  - case_decide; [done|]. intros H0. split; [done|]. lia.
  - intros [Hne Hlen]. rewrite decide_False by done. lia.
  - case_decide; lia.
  - repeat case_decide; try done; try congruence. lia.
Qed.

Lemma mat_set_dims (r c i j : nat) (v : Z) (m : Matrix) :
  mat_dims r c m -> mat_dims r c (mat_set m i j v).
Proof.
  intros [Hlen Hrows]. unfold mat_set. split.
  - by rewrite length_alter.
  - apply Forall_alter; [done|]. intros row _ Hrow. by rewrite length_insert.
Qed.

Lemma mat_get_set_eq (r c i j : nat) (v : Z) (m : Matrix) :
  mat_dims r c m -> (i < r)%nat -> (j < c)%nat ->
  mat_get (mat_set m i j v) i j = v.
Proof.
  intros [Hlen Hrows] Hi Hj. unfold mat_get, mat_set.
  rewrite list_lookup_alter_eq.
  destruct (m !! i) as [row|] eqn:Hrow.
  - simpl. rewrite Forall_lookup in Hrows. specialize (Hrows i row Hrow).
    by rewrite list_lookup_insert_eq by lia.
  - apply lookup_ge_None in Hrow. lia.
Qed.

Lemma mat_get_set_ne (i j i' j' : nat) (v : Z) (m : Matrix) :
  i <> i' \/ j <> j' ->
  mat_get (mat_set m i j v) i' j' = mat_get m i' j'.
Proof.
  intros Hne. unfold mat_get, mat_set.
  destruct (decide (i = i')) as [->|Hi].
  - rewrite list_lookup_alter_eq. destruct (m !! i') as [row|]; [|done].
    simpl. rewrite list_lookup_insert_ne; [done|]. by destruct Hne.
  - by rewrite list_lookup_alter_ne.
Qed.

Lemma total_len_snoc (words : list string) (w : string) :
  total_len (words ++ [w]) = (total_len words + len w)%Z.
Proof.
  unfold total_len. induction words as [|x words IH]; simpl; [lia|].
  rewrite IH. lia.
Qed.

Lemma total_len_take_S (words : list string) (k : nat) :
  (k < length words)%nat ->
  total_len (take (S k) words)
  = (total_len (take k words) + len (word_at words k))%Z.
Proof.
  intros Hk. destruct (lookup_lt_is_Some_2 words k Hk) as [w Hw].
  rewrite (take_S_r words k w Hw), total_len_snoc.
  unfold word_at. by rewrite Hw.
Qed.

(** The first loop of [wagnerFisher]: column 0 holds the running sums of
    the word lengths of the first text. *)
Lemma wagnerFisher_first_column (words : list string) (c : nat) (k : nat) :
  forall m0 : Matrix,
    (k <= length words)%nat ->
    mat_dims (S (length words)) (S c) m0 ->
    mat_get m0 0 0 = 0%Z ->
    let m := foldl (fun Dist i =>
                      mat_set Dist i 0
                        (mat_get Dist (i - 1) 0 + len (word_at words (i - 1))))
                   m0 (seq 1 k) in
    mat_dims (S (length words)) (S c) m
    /\ (forall j, (0 < j)%nat -> mat_get m 0 j = mat_get m0 0 j)
    /\ forall i, (i <= k)%nat -> mat_get m i 0 = total_len (take i words).
Proof.
  induction k as [|k IH]; intros m0 Hk Hdims H00; cbv zeta.
  - simpl. split; [done|]. split; [done|]. intros i Hi.
    replace i with 0%nat by lia. by rewrite take_0.
  - rewrite (seq_S k 1), foldl_app. cbn [foldl Nat.add].
    destruct (IH m0 ltac:(lia) Hdims H00) as (Hd & Hrow & Hcol).
    set (m := foldl _ m0 (seq 1 k)) in *.
    replace (S k - 1)%nat with k by lia.
    split; [by apply mat_set_dims|]. split.
    + intros j Hj. rewrite mat_get_set_ne by lia. by apply Hrow.
    + intros i Hi. destruct (decide (i = S k)) as [->|Hne].
      * rewrite (mat_get_set_eq (S (length words)) (S c)) by (done || lia).
        rewrite Hcol by lia. by rewrite total_len_take_S by lia.
      * rewrite mat_get_set_ne by lia. apply Hcol. lia.
Qed.

(** The second loop: row 0 holds the running sums of the word lengths of
    the second text. *)
Lemma wagnerFisher_first_row (words : list string) (r : nat) (k : nat) :
  forall m0 : Matrix,
    (k <= length words)%nat ->
    mat_dims (S r) (S (length words)) m0 ->
    mat_get m0 0 0 = 0%Z ->
    let m := foldl (fun Dist j =>
                      mat_set Dist 0 j
                        (mat_get Dist 0 (j - 1) + len (word_at words (j - 1))))
                   m0 (seq 1 k) in
    mat_dims (S r) (S (length words)) m
    /\ (forall i, (0 < i)%nat -> mat_get m i 0 = mat_get m0 i 0)
    /\ forall j, (j <= k)%nat -> mat_get m 0 j = total_len (take j words).
Proof.
  induction k as [|k IH]; intros m0 Hk Hdims H00; cbv zeta.
  - simpl. split; [done|]. split; [done|]. intros i Hi.
    replace i with 0%nat by lia. by rewrite take_0.
  - rewrite (seq_S k 1), foldl_app. cbn [foldl Nat.add].
    destruct (IH m0 ltac:(lia) Hdims H00) as (Hd & Hcol & Hrow).
    set (m := foldl _ m0 (seq 1 k)) in *.
    replace (S k - 1)%nat with k by lia.
    split; [by apply mat_set_dims|]. split.
    + intros i Hi. rewrite mat_get_set_ne by lia. by apply Hcol.
    + intros j Hj. destruct (decide (j = S k)) as [->|Hne].
      * rewrite (mat_get_set_eq (S r) (S (length words))) by (done || lia).
        rewrite Hrow by lia. by rewrite total_len_take_S by lia.
      * rewrite mat_get_set_ne by lia. apply Hrow. lia.
Qed.

Lemma foldl_const {A B : Type} (l : list B) (a : A) :
  foldl (fun (x : A) (_ : B) => x) a l = a.
Proof. by induction l. Qed.

Lemma wagnerFisher_start_dims (r c : nat) :
  mat_dims (S r) (S c) (mat_set (replicate (S r) (replicate (S c) 0%Z)) 0 0 0%Z)
  /\ mat_get (mat_set (replicate (S r) (replicate (S c) 0%Z)) 0 0 0%Z) 0 0 = 0%Z.
Proof.
  assert (Hd : mat_dims (S r) (S c) (replicate (S r) (replicate (S c) 0%Z))).
  { split; [by rewrite length_replicate|].
    apply Forall_replicate. by rewrite length_replicate. }
  split; [by apply mat_set_dims|].
  by rewrite (mat_get_set_eq (S r) (S c)) by (done || lia).
Qed.

(** Against a text without words (an empty or blank string, or a value
    that is not a string) the total cost is the sum of the lengths of the
    words of the other text. *)
Theorem wagnerFisher_no_words_right (x y : WFInput) (Hy : words_of y = []) :
  snd (wagnerFisher x y) = total_len (words_of x).
Proof.
  unfold wagnerFisher. rewrite Hy. cbn [length range1 seq foldl snd].
  rewrite foldl_const.
  destruct (wagnerFisher_start_dims (length (words_of x)) 0) as [Hd H0].
  destruct (wagnerFisher_first_column (words_of x) 0 (length (words_of x)) _
              (le_n _) Hd H0) as (_ & _ & Hcol).
  unfold range1. rewrite Hcol by lia. by rewrite firstn_all.
Qed.

Lemma wagnerFisher_no_words_right_witness :
  snd (wagnerFisher (WStr "ab  cde") (WStr "  ")) = total_len (words_of (WStr "ab  cde")).
Proof. apply (wagnerFisher_no_words_right (WStr "ab  cde") (WStr "  ")). reflexivity. Defined.

Theorem wagnerFisher_no_words_left (x y : WFInput) (Hx : words_of x = []) :
  snd (wagnerFisher x y) = total_len (words_of y).
Proof.
  unfold wagnerFisher. rewrite Hx. cbn [length range1 seq foldl snd].
  destruct (wagnerFisher_start_dims 0 (length (words_of y))) as [Hd H0].
  destruct (wagnerFisher_first_row (words_of y) 0 (length (words_of y)) _
              (le_n _) Hd H0) as (_ & _ & Hrow).
  unfold range1. rewrite Hrow by lia. by rewrite firstn_all.
Qed.

Lemma wagnerFisher_no_words_left_witness :
  snd (wagnerFisher (WNode node_a) (WStr "ab  cde")) = total_len (words_of (WStr "ab  cde")).
Proof. apply (wagnerFisher_no_words_left (WNode node_a) (WStr "ab  cde")). reflexivity. Defined.

(** ** Python dictionaries *)

Section PyDictFacts.
Context {K V : Type} `{EqDecision K}.
Implicit Types (d : list (K * V)) (k : K) (v : V).

Lemma dict_lookup_set_eq d k v : dict_lookup (dict_set d k v) k = Some v.
Proof.
  induction d as [|[k' v'] d IH]; simpl.
  - by rewrite decide_True.
  - case_decide; simpl; [by rewrite decide_True|]. by rewrite decide_False.
Qed.

Lemma dict_lookup_set_ne d k k' v :
  k <> k' -> dict_lookup (dict_set d k v) k' = dict_lookup d k'.
Proof.
  intros Hne. induction d as [|[k0 v0] d IH]; simpl.
  - case_decide; [congruence|done].
  - repeat (case_decide; simpl); simplify_eq; done.
Qed.

Lemma dict_set_keys_new d k v :
  dict_lookup d k = None -> (dict_set d k v).*1 = d.*1 ++ [k].
Proof.
  induction d as [|[k0 v0] d IH]; simpl; [done|].
  case_decide; [done|]. intros Hd. simpl. f_equal. by apply IH.
Qed.

Lemma dict_set_keys_old d k v :
  is_Some (dict_lookup d k) -> (dict_set d k v).*1 = d.*1.
Proof.
  induction d as [|[k0 v0] d IH]; simpl; [by intros [? ?]|].
  case_decide; simpl; [by subst|]. intros Hd. f_equal. by apply IH.
Qed.

End PyDictFacts.

(** Assignment and lookup: after [d[k] = v] the key [k] reads [v] and
    every other key reads what it read before; an assignment to a new key
    puts it last in iteration order, and one to an existing key leaves the
    order of the keys alone. *)
Theorem dict_set_lookup (d : Dict) (k k' : string) (e : Entry) :
  dict_get (dict_set d k e) k = Ret e
  /\ (k <> k' -> dict_get (dict_set d k e) k' = dict_get d k')
  /\ (dict_lookup d k = None -> (dict_set d k e).*1 = d.*1 ++ [k])
  /\ (is_Some (dict_lookup d k) -> (dict_set d k e).*1 = d.*1).
Proof.
  unfold dict_get. split; [by rewrite dict_lookup_set_eq|]. split.
  { intros Hne. by rewrite dict_lookup_set_ne. }
  split; [apply dict_set_keys_new|apply dict_set_keys_old].
Qed.

Lemma dict_set_lookup_witness :
  dict_get (dict_set map_A0_source "B0" (mkEntry "" [] [])) "B0" = Ret (mkEntry "" [] [])
  /\ ("B0" <> "A0" ->
      dict_get (dict_set map_A0_source "B0" (mkEntry "" [] [])) "A0"
      = dict_get map_A0_source "A0")
  /\ (dict_lookup map_A0_source "B0" = None ->
      (dict_set map_A0_source "B0" (mkEntry "" [] [])).*1 = map_A0_source.*1 ++ ["B0"])
  /\ (is_Some (dict_lookup map_A0_source "B0") ->
      (dict_set map_A0_source "B0" (mkEntry "" [] [])).*1 = map_A0_source.*1).
Proof. apply (dict_set_lookup map_A0_source "B0" "A0" (mkEntry "" [] [])). Defined.

(** ** Comparison of matched fragments *)

(** Under the 'wagner' algorithm, two fragments of more than three nodes
    whose second nodes differ make [compare_nodes] raise [TypeError]: the
    distance table returned by [wagnerFisher] is compared with 0. No update
    is recorded. *)
Theorem compare_nodes_wagner_TypeError (nodeA nodeB : Fragment) (a1 b1 : Node)
    (edit_script : EditScript)
    (HA : nodeA !! 1%nat = Some a1) (HB : nodeB !! 1%nat = Some b1)
    (Hne : a1 <> b1)
    (HlenA : (3 < length nodeA)%nat) (HlenB : (3 < length nodeB)%nat) :
  compare_nodes "wagner" nodeA nodeB edit_script = Exc TypeError.
Proof.
  unfold compare_nodes, py_index. rewrite HA, HB. simpl.
  rewrite decide_False by done.
  destruct (Nat.ltb_spec 3 (length nodeA)); [|lia].
  destruct (Nat.ltb_spec 3 (length nodeB)); [|lia].
  simpl.
  destruct (lookup_lt_is_Some_2 nodeA 3 HlenA) as [a3 ->].
  destruct (lookup_lt_is_Some_2 nodeB 3 HlenB) as [b3 ->].
  reflexivity.
Qed.

Lemma compare_nodes_wagner_TypeError_witness :
  compare_nodes "wagner" [node_a; node_a_end; node_b; node_b_end]
    [node_a; node_b; node_b_end; node_a_end] [] = Exc TypeError.
Proof.
  apply (compare_nodes_wagner_TypeError
           [node_a; node_a_end; node_b; node_b_end]
           [node_a; node_b; node_b_end; node_a_end] node_a_end node_b);
    [reflexivity|reflexivity|discriminate|simpl; lia|simpl; lia].
Defined.

(** [compare_nodes] looks at the second node of each fragment only:
    fragments that agree there leave the script as it is, however much
    they differ elsewhere, and a fragment of fewer than two nodes raises
    [IndexError]. *)
Theorem compare_nodes_second_node (algorithm : string) (a b x : Node)
    (restA restB : list Node) (edit_script : EditScript) :
  compare_nodes algorithm (a :: x :: restA) (b :: x :: restB) edit_script
  = Ret edit_script
  /\ compare_nodes algorithm [a] (b :: x :: restB) edit_script = Exc IndexError
  /\ compare_nodes algorithm (a :: x :: restA) [b] edit_script = Exc IndexError.
Proof.
  unfold compare_nodes. simpl. by rewrite decide_True.
Qed.

(** Outside the 'wagner' algorithm, fragments whose second nodes differ
    add exactly one update carrying the two whole fragments. *)
Theorem compare_nodes_update (algorithm : string) (nodeA nodeB : Fragment)
    (a1 b1 : Node) (edit_script : EditScript)
    (HA : nodeA !! 1%nat = Some a1) (HB : nodeB !! 1%nat = Some b1)
    (Hne : a1 <> b1) (Halg : algorithm <> "wagner") :
  compare_nodes algorithm nodeA nodeB edit_script
  = Ret (edit_script ++ [(OpUpdate, Some nodeA, Some nodeB)]).
Proof.
  unfold compare_nodes, py_index. rewrite HA, HB. simpl.
  rewrite decide_False by done.
  by rewrite bool_decide_eq_false_2 by done.
Qed.

Lemma compare_nodes_update_witness :
  compare_nodes "nierman" scenario_source scenario_target []
  = Ret ([] ++ [(OpUpdate, Some scenario_source, Some scenario_target)]).
Proof.
  apply (compare_nodes_update "nierman" scenario_source scenario_target
           node_a_end node_b); [reflexivity|reflexivity|discriminate|discriminate].
Defined.

(** ** Subtree Indexer: edge behaviour *)

(** A position at or past the end of the fragment list leaves the
    dictionary as it is, and a non-empty parent name that is neither a key
    of the dictionary nor the name being assigned raises [KeyError]. *)
Theorem rename_edges (trees : list Fragment) (index : nat)
    (parent prefix : string) (dictionary : Dict) :
  ((length trees <= index)%nat ->
   rename trees index parent prefix dictionary = Ret dictionary)
  /\ ((index < length trees)%nat ->
      parent <> "" ->
      parent <> prefix +:+ pretty index ->
      dict_lookup dictionary parent = None ->
      rename trees index parent prefix dictionary = Exc KeyError).
Proof.
  unfold rename. split.
  - intros Hlen. by rewrite drop_ge.
  - intros Hlen Hp Hne Hnone.
    destruct (drop index trees) as [|t ts] eqn:Hdrop.
    { apply (f_equal length) in Hdrop. rewrite length_drop in Hdrop.
      simpl in Hdrop. lia. }
    simpl. destruct parent as [|c p]; [done|]. simpl.
    unfold append_child, dict_get.
    rewrite dict_lookup_set_ne by done. by rewrite Hnone.
Qed.

Lemma rename_edges_witness :
  ((length [scenario_source] <= 1)%nat ->
   rename [scenario_source] 1 "P" "A" [] = Ret [])
  /\ ((0 < length [scenario_source])%nat ->
      "P" <> "" ->
      "P" <> "A" +:+ pretty 0%nat ->
      dict_lookup ([] : Dict) "P" = None ->
      rename [scenario_source] 0 "P" "A" [] = Exc KeyError).
Proof.
  split.
  - apply (rename_edges [scenario_source] 1 "P" "A" []).
  - apply (rename_edges [scenario_source] 0 "P" "A" []).
Defined.

(** ** Flattener *)

Lemma toList_loop_names (d : Dict) (fuel : nat) :
  forall (stack result r : list string),
    toList_loop fuel d stack result = Ret r ->
    Forall (fun k => is_Some (dict_lookup d k)) result ->
    Forall (fun k => is_Some (dict_lookup d k)) r.
Proof.
  induction fuel as [|fuel IH]; intros stack result r; simpl.
  - destruct (last stack); [done|]. intros [= <-]. done.
  - destruct (last stack) as [current|]; [|by intros [= <-]].
    unfold dict_get. destruct (dict_lookup d current) as [e|] eqn:He; [|done].
    simpl. intros Hloop Hres. eapply IH; [exact Hloop|].
    apply Forall_app. split; [done|]. repeat constructor. by rewrite He.
Qed.

Lemma toList_names_are_keys_core (fuel : nat) (d : Dict) (names : list string)
    (Hret : toList fuel d = Ret names) :
  Forall (fun k => is_Some (dict_lookup d k)) names.
Proof. unfold toList in Hret. by eapply toList_loop_names. Qed.

(** Every name the flattener returns is a key of the map. *)
Theorem toList_names_are_keys (fuel : nat) (d : Dict) (names : list string)
    (Hret : toList fuel d = Ret names) :
  Forall (fun k => is_Some (dict_lookup d k)) names.
Proof. eapply toList_names_are_keys_core; eassumption. Qed.

Lemma toList_names_are_keys_witness :
  Forall (fun k => is_Some (dict_lookup map_A0_source k)) ["A0"].
Proof. apply (toList_names_are_keys 1 map_A0_source ["A0"]). reflexivity. Defined.

Lemma dict_lookup_in_keys (d : Dict) (P : Entry -> Prop) (k : string) :
  Forall (fun kv => P kv.2) d -> k ∈ d.*1 ->
  exists e, dict_lookup d k = Some e /\ P e.
Proof.
  induction d as [|[k0 e0] d IH]; simpl; intros Hall Hin.
  - by apply elem_of_nil in Hin.
  - apply Forall_cons in Hall as [H0 Hall]. case_decide.
    + by exists e0.
    + apply elem_of_cons in Hin as [?|Hin]; [done|]. by apply IH.
Qed.

Lemma toList_loop_leaves (d : Dict) (stack : list string) :
  forall (fuel : nat) (result : list string),
    (forall k, k ∈ stack ->
       exists e, dict_lookup d k = Some e /\ e.(children) = []) ->
    (length stack <= fuel)%nat ->
    toList_loop fuel d stack result = Ret (result ++ reverse stack).
Proof.
  induction stack as [|k stack IH] using rev_ind; intros fuel result Hall Hfuel.
  - rewrite toList_loop_empty. by rewrite app_nil_r.
  - rewrite length_app in Hfuel. simpl in Hfuel.
    destruct fuel as [|fuel]; [lia|]. simpl.
    rewrite last_snoc.
    destruct (Hall k) as (e & He & Hch); [apply elem_of_app; right; by left|].
    unfold dict_get. rewrite He. simpl. rewrite Hch.
    rewrite removelast_last. simpl. rewrite app_nil_r.
    rewrite IH; [|intros k' Hk'; apply Hall, elem_of_app; by left|lia].
    rewrite reverse_app. simpl. by rewrite <- app_assoc.
Qed.

(** A map without any parent or child link is flattened to its keys in
    reverse insertion order: the roots are popped off the end of the stack. *)
Theorem toList_flat_reverse (fuel : nat) (d : Dict)
    (Hflat : Forall (fun kv => kv.2.(parent) = "" /\ kv.2.(children) = []) d)
    (Hfuel : (length d <= fuel)%nat) :
  toList fuel d = Ret (reverse d.*1).
Proof.
  unfold toList.
  assert (Hroots : filter (fun kv : string * Entry => negb (str_truthy (snd kv).(parent))) d = d).
  { clear Hfuel. induction d as [|kv d IH]; [done|].
    apply Forall_cons in Hflat as [[Hp _] Hflat].
    rewrite filter_cons. rewrite decide_True by (by rewrite Hp).
    by rewrite IH. }
  rewrite Hroots.
  rewrite (toList_loop_leaves d d.*1 fuel []); [done| |by rewrite length_fmap].
  intros k Hk.
  destruct (dict_lookup_in_keys d (fun e => e.(parent) = "" /\ e.(children) = []) k Hflat Hk)
    as (e & He & _ & Hch).
  by exists e.
Qed.

Lemma toList_flat_reverse_witness :
  toList 2 [("A0", mkEntry "" scenario_source []); ("A1", mkEntry "" scenario_target [])]
  = Ret (reverse [("A0", mkEntry "" scenario_source []);
                  ("A1", mkEntry "" scenario_target [])].*1).
Proof.
  apply (toList_flat_reverse 2
           [("A0", mkEntry "" scenario_source []); ("A1", mkEntry "" scenario_target [])]).
  - repeat constructor.
  - simpl. lia.
Defined.

(** ** Edit Script Generator *)

(** When no name of the source's flattened list occurs in the target's,
    the script is one delete per source identity followed by one insert per
    target identity, in flattening order, and holds no update. *)
Theorem generateEditScript_disjoint (fuel : nat) (dA dB : Dict)
    (algorithm : string) (lA lB : list string)
    (HA : toList fuel dA = Ret lA) (HB : toList fuel dB = Ret lB)
    (Hdis : forall k, k ∈ lA -> k ∉ lB) :
  generateEditScript fuel dA dB algorithm
  = Ret (delete_ops dA lA ++ insert_ops dB lB)
  /\ count_kind OpUpdate (delete_ops dA lA ++ insert_ops dB lB) = 0%nat.
Proof.
  split.
  - unfold generateEditScript, process_trees. rewrite HA, HB. simpl.
    rewrite (delete_pass_names dA lB lA [])
      by (by eapply toList_names_are_keys_core).
    simpl.
    replace (filter (fun k => k ∉ lB) lA) with lA.
    2:{ symmetry. clear HA. induction lA as [|k lA IH]; [done|].
        rewrite filter_cons, decide_True by (apply Hdis; by left).
        f_equal. apply IH. intros k' Hk'. apply Hdis. by right. }
    rewrite (insert_pass_disjoint algorithm dA dB lA lB).
    + reflexivity.
    + apply Forall_forall. intros k Hk Hin. by apply (Hdis k).
    + by eapply toList_names_are_keys_core.
  - unfold count_kind, delete_ops, insert_ops. rewrite filter_app, length_app.
    assert (H1 : forall l, filter (fun op : EditOp => op_kind op = OpUpdate)
                   ((fun k => (OpDelete, tree <$> dict_lookup dA k, None : option Fragment)) <$> l) = []).
    { induction l as [|k l IH]; [done|]. simpl. rewrite filter_cons.
      by rewrite decide_False. }
    assert (H2 : forall l, filter (fun op : EditOp => op_kind op = OpUpdate)
                   ((fun k => (OpInsert, None : option Fragment, tree <$> dict_lookup dB k)) <$> l) = []).
    { induction l as [|k l IH]; [done|]. simpl. rewrite filter_cons.
      by rewrite decide_False. }
    by rewrite H1, H2.
Qed.

Lemma generateEditScript_disjoint_witness :
  generateEditScript 1 map_A0_source map_B0_source "nierman"
  = Ret (delete_ops map_A0_source ["A0"] ++ insert_ops map_B0_source ["B0"])
  /\ count_kind OpUpdate
       (delete_ops map_A0_source ["A0"] ++ insert_ops map_B0_source ["B0"]) = 0%nat.
Proof.
  apply (generateEditScript_disjoint 1 map_A0_source map_B0_source "nierman"
           ["A0"] ["B0"]); [reflexivity|reflexivity|].
  intros k Hk Hin. apply list_elem_of_singleton in Hk, Hin. by subst.
Defined.


(** ** Cost Matrix Builder *)

Lemma cost_row_lookup (source_tree : Fragment) (trees_target : list Fragment)
    (t : Fragment) :
  forall row : list (Fragment * Cost),
    dict_lookup
      (foldl (fun row target_tree =>
                dict_set row target_tree (treeDist source_tree target_tree))
             row trees_target) t
    = if decide (t ∈ trees_target) then Some (treeDist source_tree t)
      else dict_lookup row t.
Proof.
  induction trees_target as [|t0 ts IH]; intros row; cbn [foldl].
  - rewrite decide_False; [done|]. apply not_elem_of_nil.
  - rewrite IH. destruct (decide (t ∈ ts)) as [Hin|Hnin].
    + rewrite decide_True; [done|]. by right.
    + destruct (decide (t = t0)) as [->|Hne].
      * rewrite decide_True by (by left). by rewrite dict_lookup_set_eq.
      * rewrite decide_False.
        -- by rewrite dict_lookup_set_ne.
        -- intros Hin. apply elem_of_cons in Hin as [?|?]; done.
Qed.

Lemma calculateCosts_inner (key : string) (source_tree : Fragment)
    (trees_target : list Fragment) :
  forall (dict_costs : CostDict) (row : list (Fragment * Cost)),
    dict_lookup dict_costs key = Some row ->
    let dict_costs' :=
      foldl (fun dict_costs target_tree =>
               let cost := treeDist source_tree target_tree in
               dict_set dict_costs key
                 (dict_set (default [] (dict_lookup dict_costs key))
                           target_tree cost))
            dict_costs trees_target in
    dict_lookup dict_costs' key
    = Some (foldl (fun row target_tree =>
                     dict_set row target_tree (treeDist source_tree target_tree))
                  row trees_target)
    /\ forall k', k' <> key -> dict_lookup dict_costs' k' = dict_lookup dict_costs k'.
Proof.
  induction trees_target as [|t ts IH]; intros dict_costs row Hrow; cbv zeta; simpl.
  - done.
  - rewrite Hrow. simpl.
    destruct (IH (dict_set dict_costs key (dict_set row t (treeDist source_tree t)))
                (dict_set row t (treeDist source_tree t)))
      as [H1 H2]; [by rewrite dict_lookup_set_eq|].
    split; [exact H1|].
    intros k' Hk'. rewrite H2 by done. by rewrite dict_lookup_set_ne.
Qed.

Lemma calculateCosts_other (trees_target : list Fragment) (k : string)
    (dict_source : Dict) :
  forall dict_costs : CostDict,
    k ∉ dict_source.*1 ->
    dict_lookup (calculateCosts dict_source trees_target dict_costs) k
    = dict_lookup dict_costs k.
Proof.
  unfold calculateCosts.
  induction dict_source as [|[k0 e0] ds IH]; intros dict_costs Hk; simpl; [done|].
  apply not_elem_of_cons in Hk as [Hne Hk]. simpl in Hne.
  rewrite IH by done.
  destruct (calculateCosts_inner k0 e0.(tree) trees_target
              (dict_set dict_costs k0 []) []) as [_ H2];
    [by rewrite dict_lookup_set_eq|].
  rewrite H2 by done. by rewrite dict_lookup_set_ne.
Qed.

(** For a map with distinct identities, the cost table holds under every
    identity a row that gives, for each fragment of the other tree, the tree
    distance between the identity's fragment and that fragment, whatever the
    table held before. *)
Theorem calculateCosts_lookup (dict_source : Dict) (trees_target : list Fragment)
    (dict_costs : CostDict) (key : string) (entry : Entry) (t : Fragment)
    (Hkeys : NoDup dict_source.*1)
    (Hkey : (key, entry) ∈ dict_source) (Ht : t ∈ trees_target) :
  exists row : list (Fragment * Cost),
    dict_lookup (calculateCosts dict_source trees_target dict_costs) key = Some row
    /\ dict_lookup row t = Some (treeDist entry.(tree) t).
Proof.
  revert dict_costs.
  induction dict_source as [|[k0 e0] ds IH]; intros dict_costs.
  - by apply elem_of_nil in Hkey.
  - simpl in Hkeys. apply NoDup_cons in Hkeys as [Hk0 Hnd].
    apply elem_of_cons in Hkey as [Heq|Hin].
    + simplify_eq.
      destruct (calculateCosts_inner k0 e0.(tree) trees_target
                  (dict_set dict_costs k0 []) []) as [H1 _];
        [by rewrite dict_lookup_set_eq|].
      eexists. split.
      * change (calculateCosts ((k0, e0) :: ds) trees_target dict_costs)
          with (calculateCosts ds trees_target
                  (foldl (fun dict_costs target_tree =>
                            let cost := treeDist e0.(tree) target_tree in
                            dict_set dict_costs k0
                              (dict_set (default [] (dict_lookup dict_costs k0))
                                        target_tree cost))
                         (dict_set dict_costs k0 []) trees_target)).
        rewrite calculateCosts_other by done. exact H1.
      * rewrite cost_row_lookup. by rewrite decide_True.
    + apply (IH Hnd Hin).
Qed.

Lemma calculateCosts_lookup_witness :
  exists row : list (Fragment * Cost),
    dict_lookup (calculateCosts map_A0_source [scenario_target; scenario_source] [])
      "A0" = Some row
    /\ dict_lookup row scenario_source
       = Some (treeDist (mkEntry "" scenario_source []).(tree) scenario_source).
Proof.
  apply (calculateCosts_lookup map_A0_source [scenario_target; scenario_source] []
           "A0" (mkEntry "" scenario_source []) scenario_source).
  - repeat constructor. apply not_elem_of_nil.
  - by left.
  - right. by left.
Defined.

(** ** Subtree Indexer: which fragments are named *)

Lemma is_key_dict_set (d : Dict) (k k' : string) (e : Entry) :
  is_key (dict_set d k e) k' <-> k' = k \/ is_key d k'.
Proof.
  unfold is_key. destruct (decide (k = k')) as [->|Hne].
  - rewrite dict_lookup_set_eq. split; [by left|by eexists].
  - rewrite dict_lookup_set_ne by done. split; [by right|].
    by intros [?|?].
Qed.

Lemma deeper_run_mono (lvl lvl' : Z) (frags : list Fragment) :
  (lvl <= lvl')%Z -> (deeper_run lvl' frags <= deeper_run lvl frags)%nat.
Proof.
  intros Hle. induction frags as [|[|n f] more IH]; simpl; [done|done|].
  destruct (lvl' <? depth n)%Z eqn:E'; [|lia].
  destruct (lvl <? depth n)%Z eqn:E; lia.
Qed.

Lemma elem_of_keys (d : Dict) (k : string) : k ∈ d.*1 <-> is_key d k.
Proof.
  unfold is_key. induction d as [|[k0 e0] d IH]; simpl.
  - split; [by intros ?%elem_of_nil|by intros [? ?]].
  - rewrite elem_of_cons, IH. case_decide; [|tauto].
    split; [by eexists|by left].
Qed.

Lemma dict_set_NoDup (d : Dict) (k : string) (e : Entry) :
  NoDup d.*1 -> NoDup (dict_set d k e).*1.
Proof.
  intros Hnd. destruct (dict_lookup d k) as [e'|] eqn:Hk.
  - by rewrite dict_set_keys_old by (by eexists).
  - rewrite dict_set_keys_new by done.
    apply NoDup_app. split; [done|]. split; [|apply NoDup_singleton].
    intros x Hx Hin. apply list_elem_of_singleton in Hin as ->.
    apply elem_of_keys in Hx as [? Hx]. congruence.
Qed.

Lemma rename_at_keys (prefix : string) (n : nat) :
  forall (c : Node) (cr : list Node) (later : list Fragment),
    (length later < n)%nat ->
    forall (index : nat) (parent : string) (d : Dict),
      Forall (fun f => f <> []) later ->
      parent = "" \/ is_key d parent ->
      exists d' : Dict,
        rename_at ((c :: cr) :: later) index parent prefix d = Ret d'
        /\ keys_grow prefix d d' index (S (deeper_run (depth c) later))
        /\ (NoDup d.*1 -> NoDup d'.*1).
Proof.
  unfold keys_grow.
  induction n as [|n IHn]; intros c cr later Hlen index parent d Hne Hpar; [lia|].
  cbn [rename_at].
  set (new_name := prefix +:+ pretty index).
  set (d1 := dict_set d new_name (mkEntry parent (c :: cr) [])).
  assert (Hd2 : exists d2,
             (if str_truthy parent then append_child d1 parent new_name else Ret d1)
             = Ret d2
             /\ (forall k, is_key d2 k <-> k = new_name \/ is_key d k)
             /\ (NoDup d.*1 -> NoDup d2.*1)).
  { destruct (str_truthy parent) eqn:Htr.
    - destruct Hpar as [->|Hk]; [done|].
      assert (Hk1 : is_key d1 parent) by (apply is_key_dict_set; by right).
      destruct Hk1 as [e He]. unfold append_child, dict_get. rewrite He. simpl.
      eexists. split; [done|]. split.
      + intros k.
        rewrite is_key_dict_set. unfold d1. rewrite is_key_dict_set.
        split; [|tauto]. intros [->|H]; [|done]. by right.
      + intros Hnd. by do 2 apply dict_set_NoDup.
    - exists d1. split; [done|]. split.
      + intros k. apply is_key_dict_set.
      + apply dict_set_NoDup. }
  destruct Hd2 as (d2 & -> & Hd2 & Hnd2). cbn [mbind Res_bind res_bind].
  match goal with
  | |- exists d', ?L later (S index) d2 = Ret d' /\ _ => set (loop := L)
  end.
  assert (Hloop : forall (rest : list Fragment) (i : nat) (dd : Dict),
             (length rest <= length later)%nat ->
             Forall (fun f => f <> []) rest ->
             is_key dd new_name ->
             exists d', loop rest i dd = Ret d'
                        /\ (forall k, is_key d' k <->
                              is_key dd k \/
                              exists j, (i <= j < i + deeper_run (depth c) rest)%nat
                                        /\ k = prefix +:+ pretty j)
                        /\ (NoDup dd.*1 -> NoDup d'.*1)).
  { induction rest as [|t rest IHrest]; intros i dd Hl Hr Hnew.
    - exists dd. split; [done|]. split; [|done]. intros k. simpl. split; [by left|].
      intros [?|(j & ? & _)]; [done|lia].
    - apply Forall_cons in Hr as [Ht Hr]. destruct t as [|m mr]; [done|].
      simpl in Hl. unfold loop. cbn [base_depth py_index lookup list_lookup mbind Res_bind res_bind].
      fold loop. cbn [deeper_run].
      destruct (depth c <? depth m)%Z eqn:Hdeep.
      + destruct (IHn m mr rest ltac:(lia) i new_name dd Hr (or_intror Hnew))
          as (d1' & -> & Hg1 & Hn1).
        cbn [mbind Res_bind res_bind].
        destruct (IHrest (S i) d1' ltac:(lia) Hr) as (d' & Heq & Hg2 & Hn2).
        { apply Hg1. by left. }
        exists d'. split; [exact Heq|]. split; [|by intros ?; apply Hn2, Hn1].
        intros k. rewrite Hg2, Hg1.
        pose proof (deeper_run_mono (depth c) (depth m) rest ltac:(lia)) as Hmono.
        split.
        * intros [[?|(j & Hj & ->)]|(j & Hj & ->)]; [by left| |];
            right; exists j; split; [lia|done|lia|done].
        * intros [?|(j & Hj & ->)]; [by left; left|].
          destruct (decide (j = i)) as [->|Hji].
          -- left. right. exists i. split; [lia|done].
          -- right. exists j. split; [lia|done].
      + exists dd. split; [done|]. split; [|done]. intros k. split; [by left|].
        intros [?|(j & ? & _)]; [done|lia]. }
  destruct (Hloop later (S index) d2 (le_n _) Hne) as (d' & -> & Hg & Hn).
  { apply Hd2. by left. }
  exists d'. split; [done|]. split; [|by intros ?; apply Hn, Hnd2].
  intros k. rewrite Hg, Hd2. split.
  - intros [[->|?]|(j & Hj & ->)].
    + right. exists index. split; [lia|done].
    + by left.
    + right. exists j. split; [lia|done].
  - intros [?|(j & Hj & ->)]; [by left; right|].
    destruct (decide (j = index)) as [->|Hji].
    + left. by left.
    + right. exists j. split; [lia|done].
Qed.

(** Started at position 0 with no parent and an empty dictionary on a list
    of non-empty fragments, the indexer returns a map whose identities are
    the names of position 0 and of the run of fragments after it that start
    strictly deeper than fragment 0, each once: fragments from the first one
    that is not deeper are left without identity, and the number of
    identities is one more than the length of that run. *)
Theorem rename_names_deeper_run (c : Node) (cr : list Node)
    (later : list Fragment) (prefix : string)
    (Hne : Forall (fun f => f <> []) later) :
  exists d : Dict,
    rename ((c :: cr) :: later) 0 "" prefix [] = Ret d
    /\ d.*1 ≡ₚ (fun j => prefix +:+ pretty j) <$> seq 0 (S (deeper_run (depth c) later))
    /\ length d = S (deeper_run (depth c) later).
Proof.
  destruct (rename_at_keys prefix (S (length later)) c cr later ltac:(lia)
              0%nat "" [] Hne (or_introl eq_refl)) as (d & Hd & Hkeys & Hnd).
  exists d. split; [exact Hd|].
  assert (Hperm : d.*1 ≡ₚ (fun j => prefix +:+ pretty j)
                          <$> seq 0 (S (deeper_run (depth c) later))).
  { apply NoDup_Permutation.
    - apply Hnd. constructor.
    - apply NoDup_fmap_2; [|apply NoDup_seq].
      intros x y Hxy. apply (inj (String.app prefix)) in Hxy.
      by apply (inj pretty) in Hxy.
    - intros k. rewrite elem_of_keys, (Hkeys k), list_elem_of_fmap.
      split.
      + intros [[? ?]|(j & Hj & ->)]; [done|].
        exists j. split; [done|]. apply elem_of_seq. lia.
      + intros (j & -> & Hj). apply elem_of_seq in Hj.
        right. exists j. split; [lia|done]. }
  split; [exact Hperm|].
  apply Permutation_length in Hperm.
  by rewrite !length_fmap, length_seq in Hperm.
Qed.

Lemma rename_names_deeper_run_witness :
  exists d : Dict,
    rename ((node_a :: []) :: [[node_b]; [node_b_end]; [node_a]; [node_b]]) 0 "" "A" []
    = Ret d
    /\ d.*1 ≡ₚ (fun j => "A" +:+ pretty j)
               <$> seq 0 (S (deeper_run (depth node_a)
                               [[node_b]; [node_b_end]; [node_a]; [node_b]]))
    /\ length d = S (deeper_run (depth node_a)
                       [[node_b]; [node_b_end]; [node_a]; [node_b]]).
Proof.
  apply (rename_names_deeper_run node_a []
           [[node_b]; [node_b_end]; [node_a]; [node_b]] "A").
  repeat constructor; discriminate.
Defined.

(** In that example five fragments receive three identities. *)
Example rename_five_fragments :
  (fun d : Dict => d.*1)
    <$> rename [[node_a]; [node_b]; [node_b_end]; [node_a]; [node_b]] 0 "" "A" []
  = Ret ["A0"; "A1"; "A2"].
Proof. reflexivity. Qed.

(** * Properties of the linearizer *)

(** Induction on a document, with the property available for every child. *)
Lemma Element_ind_strong (P : Element -> Prop)
    (H : forall tag etext attrib children,
           Forall P children -> P (Elem tag etext attrib children)) :
  forall e : Element, P e.
Proof.
  fix IH 1. intros [tag etext attrib children]. apply H.
  induction children as [|c cs IHcs]; constructor; [apply IH|exact IHcs].
Qed.

(** The nodes of an element start with the element's own node, at the
    depth and under the parent label given, and every later node is
    strictly deeper. *)
Lemma process_element_shape (algorithm : string) (include_attributes : bool)
    (e : Element) :
  forall (parent_tag : string) (d : Z),
    exists (first : Node) (rest : list Node),
      process_element algorithm include_attributes e parent_tag d = first :: rest
      /\ parentLabel first = parent_tag
      /\ depth first = d
      /\ Forall (fun n => (d < depth n)%Z) rest.
Proof.
  induction e as [tag etext attrib children IH] using Element_ind_strong.
  intros parent_tag d. cbn [process_element app].
  eexists _, _. split; [reflexivity|]. split; [done|]. split; [done|].
  apply Forall_app. split.
  { destruct (include_attributes && list_truthy attrib); [|done].
    apply Forall_fmap, Forall_true. intros a. simpl. lia. }
  apply Forall_app. split.
  - induction IH as [|c cs Hc _ IHcs]; [done|].
    apply Forall_app. split; [|exact IHcs].
    destruct (Hc tag (d + 1)%Z) as (first & rest & -> & _ & Hd & Hrest).
    constructor; [lia|].
    eapply Forall_impl; [exact Hrest|]. simpl. intros n Hn. lia.
  - destruct (list_truthy children); [done|]. repeat constructor. simpl. lia.
Qed.

Lemma preprocess_single_fragment_core (root : Element) (algorithm : string)
    (include_attributes : bool) :
  (exists (first : Node) (rest : list Node),
     preprocess_xml root algorithm include_attributes = first :: rest
     /\ parentLabel first = "0" /\ depth first = 0%Z
     /\ Forall (fun n => (0 < depth n)%Z) rest)
  /\ subTrees (preprocess_xml root algorithm include_attributes) []
     = Ret [preprocess_xml root algorithm include_attributes].
Proof.
  unfold preprocess_xml.
  destruct (process_element_shape algorithm include_attributes root "0" 0%Z)
    as (first & rest & Heq & Hp & Hd & Hrest).
  split; [by exists first, rest|].
  rewrite Heq. apply subTrees_single_fragment_core.
  eapply Forall_impl; [exact Hrest|]. simpl. intros n Hn. lia.
Qed.

(** The tree of a document is one fragment: its first node is the root
    node, at depth 0 under the parent label ["0"], and the extractor returns
    the whole tree as the only fragment. *)
Theorem preprocess_single_fragment (root : Element) (algorithm : string)
    (include_attributes : bool) :
  (exists (first : Node) (rest : list Node),
     preprocess_xml root algorithm include_attributes = first :: rest
     /\ parentLabel first = "0" /\ depth first = 0%Z
     /\ Forall (fun n => (0 < depth n)%Z) rest)
  /\ subTrees (preprocess_xml root algorithm include_attributes) []
     = Ret [preprocess_xml root algorithm include_attributes].
Proof. eapply preprocess_single_fragment_core; eassumption. Qed.

(** Comparing two documents: whatever the documents and the options of the
    linearizer, [run] returns a script of two operations, the delete of the
    whole first tree followed by the insert of the whole second tree, and
    patching it gives the second tree as a single element. *)
Theorem run_on_documents (fuel : nat) (root1 root2 : Element)
    (algorithm : string) (include_attributes : bool) :
  run (S fuel) (preprocess_xml root1 algorithm include_attributes)
    (preprocess_xml root2 algorithm include_attributes) algorithm
  = Ret [(OpDelete, Some (preprocess_xml root1 algorithm include_attributes), None);
         (OpInsert, None, Some (preprocess_xml root2 algorithm include_attributes))]
  /\ patch <$> run (S fuel) (preprocess_xml root1 algorithm include_attributes)
                 (preprocess_xml root2 algorithm include_attributes) algorithm
     = Ret [Some (preprocess_xml root2 algorithm include_attributes)].
Proof.
  destruct (preprocess_single_fragment_core root1 algorithm include_attributes)
    as [(n1 & r1 & E1 & _) S1].
  destruct (preprocess_single_fragment_core root2 algorithm include_attributes)
    as [(n2 & r2 & E2 & _) S2].
  rewrite E1, E2 in *.
  destruct (run_globals_nonempty fuel n1 n2 r1 r2 algorithm)
    as (f1 & f2 & m1 & m2 & cA & cB & H1 & H2 & H).
  rewrite S1 in H1. rewrite S2 in H2. simplify_eq.
  unfold run. rewrite H. done.
Qed.

(** The nodes of an element, with the loop over the children written as
    a bind. *)
Lemma process_element_eq (algorithm : string) (include_attributes : bool)
    (tag : string) (etext : option string) (attrib : list (string * string))
    (children : list Element) (parent_tag : string) (d : Z) :
  process_element algorithm include_attributes (Elem tag etext attrib children)
    parent_tag d
  = [mkNode parent_tag (Tag tag) d
       (if bool_decide (algorithm = "wagner") then Some (element_text etext) else None)]
    ++ (if include_attributes && list_truthy attrib
        then (fun a : string * string =>
                mkNode tag (Attr a.1 a.2) (d + 1)
                  (if bool_decide (algorithm = "wagner") then Some a.2 else None))
               <$> attrib
        else [])
    ++ (children ≫= fun child =>
          process_element algorithm include_attributes child tag (d + 1))
    ++ (if list_truthy children then []
        else [mkNode tag (Tag "0") (d + 1)
                (if bool_decide (algorithm = "wagner") then Some "" else None)]).
Proof.
  reflexivity.
Qed.

Lemma last_bind_some {A B : Type} (f : A -> list B) (Q : B -> Prop) (l : list A) :
  Forall (fun a => exists b, last (f a) = Some b /\ Q b) l ->
  l <> [] ->
  exists b, last (l ≫= f) = Some b /\ Q b.
Proof.
  induction 1 as [|a l Ha Hl IH]; [done|]. intros _.
  cbn [mbind list_bind]. rewrite last_app.
  destruct l as [|a' l'].
  - simpl. exact Ha.
  - destruct IH as (b & -> & Hb); [done|]. by exists b.
Qed.

(** The last node of a document's tree is a terminal marker. *)
Lemma process_element_last (algorithm : string) (include_attributes : bool)
    (e : Element) :
  forall (parent_tag : string) (d : Z),
    exists n : Node,
      last (process_element algorithm include_attributes e parent_tag d) = Some n
      /\ label n = Tag "0".
Proof.
  induction e as [tag etext attrib children IH] using Element_ind_strong.
  intros parent_tag d. rewrite process_element_eq.
  destruct children as [|c cs].
  - cbn [list_truthy]. rewrite !app_assoc, last_snoc. by eexists.
  - cbn [list_truthy]. rewrite app_nil_r, !last_app.
    destruct (last_bind_some
                (fun child => process_element algorithm include_attributes child tag (d + 1))
                (fun n => label n = Tag "0") (c :: cs)) as (n & -> & Hn); [|done|by exists n].
    eapply Forall_impl; [exact IH|]. intros child Hchild. apply Hchild.
Qed.

(** The tree distance between the trees of any two documents is 0.0: both
    end with a terminal marker, and the distance only compares the last
    nodes. *)
Theorem treeDist_documents (root1 root2 : Element) (algorithm1 algorithm2 : string)
    (include1 include2 : bool) :
  treeDist (preprocess_xml root1 algorithm1 include1)
           (preprocess_xml root2 algorithm2 include2) = Finite 0.
Proof.
  unfold preprocess_xml.
  destruct (process_element_last algorithm1 include1 root1 "0" 0%Z) as (a & Ha & La).
  destruct (process_element_last algorithm2 include2 root2 "0" 0%Z) as (b & Hb & Lb).
  rewrite (treeDist_last_nodes_core _ _ a b Ha Hb).
  rewrite decide_True; [done|]. by rewrite La, Lb.
Qed.

(** Under the 'wagner' algorithm every node carries a text field, and
    under any other algorithm none does. *)
Theorem preprocess_text_fields (root : Element) (algorithm : string)
    (include_attributes : bool) :
  Forall (fun n => is_Some (text n) <-> algorithm = "wagner")
         (preprocess_xml root algorithm include_attributes).
Proof.
  unfold preprocess_xml. generalize "0" 0%Z.
  induction root as [tag etext attrib children IH] using Element_ind_strong.
  intros parent_tag d. rewrite process_element_eq.
  assert (Hfield : forall s : string,
             is_Some (if bool_decide (algorithm = "wagner") then Some s else None)
             <-> algorithm = "wagner").
  { intros s. case_bool_decide; split; try done; try (by eexists); by intros [? ?]. }
  repeat (apply Forall_app; split).
  - repeat constructor; apply Hfield.
  - destruct (_ && _); [|done]. apply Forall_fmap, Forall_true.
    intros a. apply Hfield.
  - apply Forall_bind. eapply Forall_impl; [exact IH|].
    intros child Hchild. apply Hchild.
  - destruct (list_truthy children); [done|]. repeat constructor; apply Hfield.
Qed.

(** ** Tree statistics *)

Lemma foldl_max_spec (l : list Z) :
  forall x : Z,
    (foldl Z.max x l = x \/ foldl Z.max x l ∈ l)
    /\ (x <= foldl Z.max x l)%Z
    /\ forall y, y ∈ l -> (y <= foldl Z.max x l)%Z.
Proof.
  induction l as [|z l IH]; intros x; simpl.
  - split; [by left|]. split; [lia|]. by intros y ?%elem_of_nil.
  - destruct (IH (Z.max x z)) as (Hin & Hge & Hub). split; [|split].
    + destruct Hin as [Heq|Hin]; [|right; by right].
      rewrite Heq.
      destruct (Z.max_spec x z) as [[_ Hm]|[_ Hm]]; rewrite Hm.
      * right. by left.
      * by left.
    + lia.
    + intros y Hy. apply elem_of_cons in Hy as [->|Hy]; [lia|by apply Hub].
Qed.

Lemma py_max_spec (l : list Z) (m : Z) :
  py_max l = Some m <-> m ∈ l /\ forall y, y ∈ l -> (y <= m)%Z.
Proof.
  destruct l as [|x l]; simpl.
  - split; [done|]. by intros [?%elem_of_nil _].
  - destruct (foldl_max_spec l x) as (Hin & Hge & Hub). split.
    + intros [= <-]. split.
      * destruct Hin as [->|Hin]; [by left|by right].
      * intros y Hy. apply elem_of_cons in Hy as [->|Hy]; [done|by apply Hub].
    + intros [Hm Hall]. f_equal.
      assert (foldl Z.max x l ∈ x :: l) as Hf.
      { destruct Hin as [->|Hin]; [by left|by right]. }
      apply Hall in Hf.
      assert (m <= foldl Z.max x l)%Z; [|lia].
      apply elem_of_cons in Hm as [->|Hm]; [done|by apply Hub].
Qed.

(** The statistics of a tree: none for the empty tree (where [max] raises
    [ValueError]); otherwise the maximal depth is the depth of some node and
    no node is deeper, the node count is the length of the tree, and the
    leaf count is at most the node count. *)
Theorem get_tree_stats_spec (elements : Tree) :
  (elements = [] -> get_tree_stats elements = None)
  /\ (elements <> [] ->
      exists st : TreeStats,
        get_tree_stats elements = Some st
        /\ (exists n, n ∈ elements /\ depth n = st.(max_depth))
        /\ (forall n, n ∈ elements -> (depth n <= st.(max_depth))%Z)
        /\ st.(total_nodes) = length elements
        /\ (st.(leaf_nodes) <= st.(total_nodes))%nat).
Proof.
  split; [by intros ->|]. intros Hne.
  unfold get_tree_stats.
  destruct (py_max (depth <$> elements)) as [m|] eqn:Hmax.
  - apply py_max_spec in Hmax as [Hin Hub]. simpl. eexists. split; [done|]. simpl.
    split; [|split; [|split; [done|]]].
    + apply list_elem_of_fmap in Hin as (n & -> & Hn). by exists n.
    + intros n Hn. apply Hub. apply list_elem_of_fmap. by exists n.
    + apply length_filter.
  - by destruct elements.
Qed.

Lemma get_tree_stats_spec_witness :
  (([] : Tree) = [] -> get_tree_stats [] = None)
  /\ (scenario_target <> [] ->
      exists st : TreeStats,
        get_tree_stats scenario_target = Some st
        /\ (exists n, n ∈ scenario_target /\ depth n = st.(max_depth))
        /\ (forall n, n ∈ scenario_target -> (depth n <= st.(max_depth))%Z)
        /\ st.(total_nodes) = length scenario_target
        /\ (st.(leaf_nodes) <= st.(total_nodes))%nat).
Proof.
  split.
  - apply (get_tree_stats_spec []).
  - apply (get_tree_stats_spec scenario_target).
Defined.

(** The counts over a document, with the loops over the children written
    as sums and folds. *)
Lemma count_elements_eq tag etext attrib children :
  count_elements (Elem tag etext attrib children)
  = S (sum_list (count_elements <$> children)).
Proof.
  cbn [count_elements]. f_equal.
  induction children as [|c cs IH]; [done|].
  cbn [fmap list_fmap sum_list sum_list_with]. by rewrite IH.
Qed.

Lemma count_attributes_eq tag etext attrib children :
  count_attributes (Elem tag etext attrib children)
  = (length attrib + sum_list (count_attributes <$> children))%nat.
Proof.
  cbn [count_attributes]. f_equal.
  induction children as [|c cs IH]; [done|].
  cbn [fmap list_fmap sum_list sum_list_with]. by rewrite IH.
Qed.

Lemma count_childless_eq tag etext attrib children :
  count_childless (Elem tag etext attrib children)
  = if list_truthy children then sum_list (count_childless <$> children) else 1%nat.
Proof.
  destruct children as [|c0 cs0]; [done|].
  cbn [list_truthy count_childless fmap list_fmap sum_list sum_list_with].
  f_equal.
  induction cs0 as [|c cs IH]; [done|].
  cbn [fmap list_fmap sum_list sum_list_with]. by rewrite IH.
Qed.

Lemma height_eq tag etext attrib children :
  height (Elem tag etext attrib children)
  = foldr (fun child acc => Z.max (1 + height child) acc) 0%Z children.
Proof.
  cbn [height].
  induction children as [|c cs IH]; [done|]. cbn [foldr]. by rewrite IH.
Qed.

Lemma no_zero_tag_eq tag etext attrib children :
  no_zero_tag (Elem tag etext attrib children)
  <-> tag <> "0" /\ Forall no_zero_tag children.
Proof.
  simpl. apply and_iff_compat_l.
  induction children as [|c cs IH]; simpl.
  - split; [by constructor|done].
  - rewrite IH, Forall_cons. done.
Qed.

Lemma height_nonneg (e : Element) : (0 <= height e)%Z.
Proof.
  destruct e as [tag etext attrib children]. rewrite height_eq.
  induction children as [|c cs IH]; simpl; lia.
Qed.

(** How many nodes the tree of an element has. *)
Lemma process_element_length (algorithm : string) (include_attributes : bool)
    (e : Element) :
  forall (parent_tag : string) (d : Z),
    length (process_element algorithm include_attributes e parent_tag d)
    = (count_elements e
       + (if include_attributes then count_attributes e else 0)
       + count_childless e)%nat.
Proof.
  induction e as [tag etext attrib children IH] using Element_ind_strong.
  intros parent_tag d.
  rewrite process_element_eq, count_elements_eq, count_attributes_eq,
    count_childless_eq.
  rewrite !length_app.
  assert (Hkids :
    length (children ≫= fun child =>
              process_element algorithm include_attributes child tag (d + 1))
    = (sum_list (count_elements <$> children)
       + (if include_attributes then sum_list (count_attributes <$> children) else 0)
       + sum_list (count_childless <$> children))%nat).
  { induction IH as [|c cs Hc _ IHcs]; [by destruct include_attributes|].
    cbn [mbind list_bind fmap list_fmap sum_list sum_list_with].
    rewrite length_app, Hc, IHcs. unfold id. destruct include_attributes; lia. }
  rewrite Hkids.
  assert (Hattr :
    length (if include_attributes && list_truthy attrib
            then (fun a : string * string =>
                    mkNode tag (Attr a.1 a.2) (d + 1)
                      (if bool_decide (algorithm = "wagner") then Some a.2 else None))
                   <$> attrib
            else [])
    = if include_attributes then length attrib else 0%nat).
  { destruct include_attributes, attrib; simpl; by rewrite ?length_fmap. }
  rewrite Hattr.
  destruct children as [|c cs], include_attributes; simpl; lia.
Qed.

(** How many of them are terminal markers. *)
Lemma process_element_leaves (algorithm : string) (include_attributes : bool)
    (e : Element) :
  no_zero_tag e ->
  forall (parent_tag : string) (d : Z),
    length (filter (fun elem => label elem = Tag "0")
              (process_element algorithm include_attributes e parent_tag d))
    = count_childless e.
Proof.
  induction e as [tag etext attrib children IH] using Element_ind_strong.
  intros [Htag Hkids]%no_zero_tag_eq parent_tag d.
  rewrite process_element_eq, count_childless_eq.
  rewrite !filter_app, !length_app.
  rewrite filter_cons, decide_False by (simpl; congruence).
  assert (Hattr :
    filter (fun elem => label elem = Tag "0")
      (if include_attributes && list_truthy attrib
       then (fun a : string * string =>
               mkNode tag (Attr a.1 a.2) (d + 1)
                 (if bool_decide (algorithm = "wagner") then Some a.2 else None))
              <$> attrib
       else []) = []).
  { destruct (_ && _); [|done].
    induction attrib as [|a attrib IHa]; [done|].
    cbn [fmap list_fmap]. rewrite filter_cons, decide_False by done. exact IHa. }
  rewrite Hattr.
  assert (Hsum :
    length (filter (fun elem => label elem = Tag "0")
              (children ≫= fun child =>
                 process_element algorithm include_attributes child tag (d + 1)))
    = sum_list (count_childless <$> children)).
  { clear Hattr. induction IH as [|c cs Hc _ IHcs]; [done|].
    apply Forall_cons in Hkids as [Hz Hkids].
    cbn [mbind list_bind fmap list_fmap sum_list sum_list_with].
    rewrite filter_app, length_app, (Hc Hz), (IHcs Hkids). done. }
  rewrite Hsum. destruct children as [|c cs]; simpl; [done|lia].
Qed.

(** How deep they go. *)
Lemma process_element_depths (algorithm : string) (include_attributes : bool)
    (e : Element) :
  forall (parent_tag : string) (d : Z),
    (forall n, n ∈ process_element algorithm include_attributes e parent_tag d ->
               (depth n <= d + 1 + height e)%Z)
    /\ exists n, n ∈ process_element algorithm include_attributes e parent_tag d
                 /\ depth n = (d + 1 + height e)%Z.
Proof.
  induction e as [tag etext attrib children IH] using Element_ind_strong.
  intros parent_tag d. rewrite process_element_eq, height_eq.
  set (h := foldr (fun child acc => Z.max (1 + height child) acc) 0%Z children).
  assert (Hh : (0 <= h)%Z).
  { unfold h. clear. induction children; simpl; lia. }
  assert (Hub : Forall (fun c => (1 + height c <= h)%Z) children).
  { unfold h. clear. induction children as [|c cs IHc]; [done|]. simpl.
    constructor; [lia|]. eapply Forall_impl; [exact IHc|]. simpl. lia. }
  split.
  - intros n Hn. rewrite !elem_of_app in Hn. destruct Hn as [Hn|[Hn|[Hn|Hn]]].
    + apply list_elem_of_singleton in Hn as ->. simpl. lia.
    + destruct (_ && _); [|by apply elem_of_nil in Hn].
      apply list_elem_of_fmap in Hn as (a & -> & _). simpl. lia.
    + apply list_elem_of_bind in Hn as (c & Hn & Hc).
      rewrite Forall_forall in IH, Hub.
      destruct (IH c Hc tag (d + 1)%Z) as [Hle _].
      specialize (Hle n Hn). specialize (Hub c Hc). lia.
    + destruct (list_truthy children); [by apply elem_of_nil in Hn|].
      apply list_elem_of_singleton in Hn as ->. simpl. lia.
  - destruct children as [|c0 cs0] eqn:Hch.
    + eexists. split.
      * rewrite !elem_of_app. do 3 right. by left.
      * simpl. unfold h. simpl. lia.
    + rewrite <- Hch in *.
      assert (Hatt : exists c, c ∈ children /\ (1 + height c = h)%Z).
      { unfold h. rewrite Hch. clear.
        generalize c0. induction cs0 as [|c1 cs1 IHc]; intros c.
        - exists c. split; [by left|]. simpl. pose proof (height_nonneg c). lia.
        - destruct (IHc c1) as (c' & Hin & Heq). simpl in *.
          destruct (Z.max_spec (1 + height c)
                      (Z.max (1 + height c1)
                         (foldr (fun child acc => Z.max (1 + height child) acc) 0%Z cs1)))
            as [[_ Hm]|[_ Hm]]; rewrite Hm.
          + exists c'. split; [by right|done].
          + exists c. split; [by left|done]. }
      destruct Hatt as (c & Hc & Heq).
      rewrite Forall_forall in IH.
      destruct (IH c Hc tag (d + 1)%Z) as [_ (n & Hn & Hd)].
      exists n. split; [|lia].
      rewrite !elem_of_app. right. right. left.
      apply list_elem_of_bind. by exists c.
Qed.

(** The statistics of a document whose elements are not tagged ["0"]: the
    maximal depth is one more than the number of levels below the root, the
    node count is the number of elements plus the number of attributes (when
    they are included) plus the number of childless elements, and the leaf
    count is the number of childless elements. *)
Theorem get_tree_stats_document (root : Element) (algorithm : string)
    (include_attributes : bool) (Htags : no_zero_tag root) :
  get_tree_stats (preprocess_xml root algorithm include_attributes)
  = Some (mkTreeStats (height root + 1)
            (count_elements root
             + (if include_attributes then count_attributes root else 0)
             + count_childless root)
            (count_childless root)).
Proof.
  unfold get_tree_stats, preprocess_xml.
  destruct (process_element_depths algorithm include_attributes root "0" 0%Z)
    as [Hub (n & Hn & Hd)].
  assert (Hmax : py_max (depth <$> process_element algorithm include_attributes root "0" 0)
                 = Some (height root + 1)%Z).
  { apply py_max_spec. split.
    - apply list_elem_of_fmap. exists n. split; [lia|done].
    - intros y (m & -> & Hm)%list_elem_of_fmap. specialize (Hub m Hm). lia. }
  rewrite Hmax. simpl.
  rewrite process_element_length, process_element_leaves by done. done.
Qed.

Lemma get_tree_stats_document_witness :
  get_tree_stats (preprocess_xml doc_abc "nierman" true)
  = Some (mkTreeStats (height doc_abc + 1)
            (count_elements doc_abc
             + (if true then count_attributes doc_abc else 0)
             + count_childless doc_abc)
            (count_childless doc_abc)).
Proof.
  apply (get_tree_stats_document doc_abc "nierman" true).
  simpl. repeat split; discriminate.
Defined.

(** On the sample document: six nodes, two of them terminal markers, down
    to depth 2. *)
Example get_tree_stats_doc_abc :
  get_tree_stats (preprocess_xml doc_abc "nierman" true)
  = Some (mkTreeStats 2 6 2).
Proof. reflexivity. Qed.

(** * Properties of the serializer loop *)

Lemma py_index_Z_nat {A : Type} (l : list A) (i : nat) :
  py_index_Z l (Z.of_nat i) = py_index l i.
Proof.
  unfold py_index_Z. destruct (Z.leb_spec 0 (Z.of_nat i)); [|lia].
  by rewrite Nat2Z.id.
Qed.

Lemma for_each_app {A S : Type} (f : S -> A -> Res S) (l1 l2 : list A) (s : S) :
  for_each f (l1 ++ l2) s = for_each f l1 s ≫= for_each f l2.
Proof.
  revert s. induction l1 as [|x l1 IH]; intros s; simpl; [done|].
  destruct (f s x) as [s'| |]; simpl; [apply IH|done|done].
Qed.

(** The scan finds the last element at or before its starting position
    that carries the tag. *)
Lemma find_parent_found (elems : list XmlElement) (p : string) (idx : nat) :
  forall fuel : nat,
    (idx < length elems)%nat -> (idx <= fuel)%nat ->
    (exists j, (j <= idx)%nat /\ (xtag <$> elems) !! j = Some (Tag p)) ->
    exists j, find_parent fuel elems p (Z.of_nat idx) = Ret (Z.of_nat j)
              /\ (j <= idx)%nat
              /\ (xtag <$> elems) !! j = Some (Tag p)
              /\ forall j', (j < j' <= idx)%nat -> (xtag <$> elems) !! j' <> Some (Tag p).
Proof.
  induction idx as [|idx IH]; intros fuel Hlen Hfuel (j0 & Hj0 & Htag).
  - assert (j0 = 0%nat) as -> by lia.
    exists 0%nat. rewrite list_lookup_fmap in Htag.
    destruct (elems !! 0%nat) as [e|] eqn:He; [|done]. simpl in Htag.
    destruct fuel; simpl; rewrite (py_index_Z_nat elems 0); unfold py_index;
      rewrite He; simpl; (rewrite bool_decide_eq_true_2 by congruence);
      (split; [done|]); (split; [done|]); (split; [by rewrite list_lookup_fmap, He|]);
      intros j' ?; lia.
  - destruct (lookup_lt_is_Some_2 elems (S idx) Hlen) as [e He].
    destruct (decide (Tag p = xtag e)) as [Heq|Hne].
    + exists (S idx).
      destruct fuel; simpl; rewrite (py_index_Z_nat elems (S idx)); unfold py_index;
        rewrite He; simpl; (rewrite bool_decide_eq_true_2 by done);
        (split; [done|]); (split; [done|]);
        (split; [by rewrite list_lookup_fmap, He; simpl; rewrite Heq|]);
        intros j' ?; lia.
    + destruct fuel as [|fuel]; [lia|].
      assert (Hj0' : (j0 <= idx)%nat).
      { destruct (decide (j0 = S idx)) as [->|]; [|lia].
        rewrite list_lookup_fmap, He in Htag. simpl in Htag. congruence. }
      destruct (IH fuel ltac:(lia) ltac:(lia) (ex_intro _ j0 (conj Hj0' Htag)))
        as (j & Hfind & Hj & Hjt & Hnear).
      exists j. split.
      * cbn [find_parent]. rewrite (py_index_Z_nat elems (S idx)). unfold py_index.
        rewrite He. cbn [mbind Res_bind res_bind].
        rewrite bool_decide_eq_false_2 by done.
        replace (Z.of_nat (S idx) - 1)%Z with (Z.of_nat idx) by lia. exact Hfind.
      * split; [lia|]. split; [done|]. intros j' Hj'.
        destruct (decide (j' = S idx)) as [->|].
        -- rewrite list_lookup_fmap, He. simpl. congruence.
        -- apply Hnear. lia.
Qed.

(** Without any element carrying the tag the scan walks down through the
    negative positions and runs off the list. *)
Lemma find_parent_missing (elems : list XmlElement) (p : string) (fuel : nat) :
  forall idx : Z,
    (- Z.of_nat (length elems) - 1 <= idx < Z.of_nat (length elems))%Z ->
    (idx + Z.of_nat (length elems) + 1 <= Z.of_nat fuel)%Z ->
    Tag p ∉ xtag <$> elems ->
    find_parent fuel elems p idx = Exc IndexError.
Proof.
  induction fuel as [|fuel IH]; intros idx Hidx Hfuel Hnone.
  - assert (idx = - Z.of_nat (length elems) - 1)%Z as -> by lia.
    simpl. unfold py_index_Z.
    destruct (Z.leb_spec 0 (- Z.of_nat (length elems) - 1)); [lia|].
    destruct (Z.leb_spec (- Z.of_nat (length elems)) (- Z.of_nat (length elems) - 1));
      [lia|done].
  - cbn [find_parent]. unfold py_index_Z.
    assert (Hmiss : forall k e, elems !! k = Some e -> Tag p <> xtag e).
    { intros k e He Heq. apply Hnone. rewrite Heq.
      apply list_elem_of_fmap. exists e. split; [done|].
      by eapply list_elem_of_lookup_2. }
    destruct (Z.leb_spec 0 idx).
    + unfold py_index.
      destruct (lookup_lt_is_Some_2 elems (Z.to_nat idx) ltac:(lia)) as [e He].
      rewrite He. cbn [mbind Res_bind res_bind].
      rewrite bool_decide_eq_false_2 by (by eapply Hmiss).
      apply IH; [lia|lia|done].
    + destruct (Z.leb_spec (- Z.of_nat (length elems)) idx); [|done].
      unfold py_index.
      destruct (lookup_lt_is_Some_2 elems (Z.to_nat (Z.of_nat (length elems) + idx))
                  ltac:(lia)) as [e He].
      rewrite He. cbn [mbind Res_bind res_bind].
      rewrite bool_decide_eq_false_2 by (by eapply Hmiss).
      apply IH; [lia|lia|done].
Qed.

Lemma index_position_nat (n j : nat) : index_position n (Z.of_nat j) = j.
Proof.
  unfold index_position. destruct (Z.leb_spec 0 (Z.of_nat j)); [|lia].
  by rewrite Nat2Z.id.
Qed.

(** One iteration on a node that is not a root and whose parent tag has
    been seen: the node becomes an element attached to the last element
    carrying that tag. *)
Lemma post_step_child (algorithm : string) (elems : list XmlElement)
    (root : option nat) (n : Node) :
  parentLabel n <> "0" ->
  Tag (parentLabel n) ∈ xtag <$> elems ->
  exists j : nat,
    post_step algorithm (elems, root) n
    = Ret (elems ++ [mkXml (label n) (Some j)
                       (if bool_decide (algorithm = "wagner") then text n else None)],
           root)
    /\ nearest_parent (xtag <$> elems) (length elems) (parentLabel n) j.
Proof.
  intros Hroot Hin.
  apply list_elem_of_lookup in Hin as [j0 Hj0].
  assert (Hlen0 : (j0 < length elems)%nat).
  { apply lookup_lt_Some in Hj0. by rewrite length_fmap in Hj0. }
  destruct (length elems) as [|m] eqn:Hm; [lia|].
  unfold post_step. rewrite bool_decide_eq_false_2 by done. rewrite Hm.
  replace (Z.of_nat (S m) - 1)%Z with (Z.of_nat m) by lia.
  rewrite py_index_Z_nat. unfold py_index.
  destruct (lookup_lt_is_Some_2 elems m ltac:(lia)) as [e He].
  rewrite He. cbn [mbind Res_bind res_bind].
  destruct (decide (Tag (parentLabel n) = xtag e)) as [Hlast|Hlast];
    [rewrite (bool_decide_eq_true_2 (Tag (parentLabel n) = xtag e)) by done
    |rewrite (bool_decide_eq_false_2 (Tag (parentLabel n) = xtag e)) by done].
  - cbn [mbind Res_bind res_bind]. rewrite index_position_nat.
    exists m. split; [done|]. split; [lia|]. split.
    + rewrite list_lookup_fmap, He. simpl. by rewrite Hlast.
    + intros j' ?. lia.
  - destruct (find_parent_found elems (parentLabel n) m (2 * S m + 1))
      as (j & -> & Hj & Hjt & Hnear); [lia|lia|exists j0; split; [lia|done]|].
    cbn [mbind Res_bind res_bind]. rewrite index_position_nat.
    exists j. split; [done|]. split; [lia|]. split; [done|].
    intros j' Hj'. apply Hnear. lia.
Qed.

(** One iteration on a node that is not a root and whose parent tag has
    not been seen raises [IndexError]. *)
Lemma post_step_orphan (algorithm : string) (elems : list XmlElement)
    (root : option nat) (n : Node) :
  parentLabel n <> "0" ->
  Tag (parentLabel n) ∉ xtag <$> elems ->
  post_step algorithm (elems, root) n = Exc IndexError.
Proof.
  intros Hroot Hnone. unfold post_step. rewrite bool_decide_eq_false_2 by done.
  destruct elems as [|e0 elems0] eqn:Helems; [done|]. rewrite <- Helems in *.
  assert (Hlen : (0 < length elems)%nat) by (rewrite Helems; simpl; lia).
  replace (Z.of_nat (length elems) - 1)%Z with (Z.of_nat (length elems - 1)) by lia.
  rewrite py_index_Z_nat. unfold py_index.
  destruct (lookup_lt_is_Some_2 elems (length elems - 1) ltac:(lia)) as [e He].
  rewrite He. cbn [mbind Res_bind res_bind].
  rewrite (bool_decide_eq_false_2 (Tag (parentLabel n) = xtag e)).
  - rewrite find_parent_missing; [done|lia|lia|done].
  - intros Heq. apply Hnone. rewrite Heq.
    apply list_elem_of_fmap. exists e. split; [done|].
    by eapply list_elem_of_lookup_2.
Qed.

Lemma attached_extend (algorithm : string) (tags more : list Label) (k : nat)
    (n : Node) (e : XmlElement) :
  (k <= length tags)%nat ->
  attached algorithm tags k n e -> attached algorithm (tags ++ more) k n e.
Proof.
  intros Hk [Htag Hpar]. split; [done|].
  destruct (xparent e) as [j|]; [|done].
  destruct Hpar as (Hroot & (Hj & Hjt & Hnear) & Htext).
  split; [done|]. split; [|done]. split; [done|]. split.
  - rewrite lookup_app_l by lia. done.
  - intros j' Hj'. rewrite lookup_app_l by lia. by apply Hnear.
Qed.

(** The loop, from any state reached on the nodes [pre]. *)
Lemma post_loop_attached (algorithm : string) (rest : list Node) :
  forall (pre : list Node) (elems : list XmlElement) (root : option nat),
    xtag <$> elems = label <$> pre ->
    (forall k n e, pre !! k = Some n -> elems !! k = Some e ->
                   attached algorithm (label <$> pre) k n e) ->
    parented (label <$> pre) rest ->
    exists (elems' : list XmlElement) (root' : option nat),
      for_each (post_step algorithm) rest (elems, root) = Ret (elems', root')
      /\ xtag <$> elems' = label <$> (pre ++ rest)
      /\ (forall k n e, (pre ++ rest) !! k = Some n -> elems' !! k = Some e ->
                        attached algorithm (label <$> (pre ++ rest)) k n e)
      /\ (root' = None -> root = None /\ Forall (fun n => parentLabel n <> "0") rest).
Proof.
  induction rest as [|n rest IH]; intros pre elems root Htags Hatt Hpar.
  - exists elems, root. rewrite app_nil_r.
    split; [done|]. split; [done|]. split; [done|]. by intros ->.
  - destruct Hpar as [Hn Hpar].
    assert (Hlen : length elems = length pre).
    { apply (f_equal length) in Htags. by rewrite !length_fmap in Htags. }
    assert (Hstep : exists e root1,
               post_step algorithm (elems, root) n = Ret (elems ++ [e], root1)
               /\ attached algorithm (label <$> pre) (length pre) n e
               /\ (root1 = None -> root = None /\ parentLabel n <> "0")).
    { destruct (decide (parentLabel n = "0")) as [Hroot|Hroot].
      - eexists _, _. split.
        + unfold post_step. by rewrite bool_decide_eq_true_2.
        + split; [by split|]. done.
      - destruct Hn as [?|Hin]; [done|].
        rewrite <- Htags in Hin.
        destruct (post_step_child algorithm elems root n Hroot Hin)
          as (j & Hstep & Hnear).
        eexists _, _. split; [exact Hstep|]. split; [|done].
        split; [done|]. simpl. rewrite <- Htags, <- Hlen. done. }
    destruct Hstep as (e & root1 & Hstep & Hatt_n & Hroot1).
    destruct (IH (pre ++ [n]) (elems ++ [e]) root1) as (elems' & root' & Hrun & Ht' & Ha' & Hr').
    + rewrite !fmap_app, Htags. simpl. by destruct Hatt_n as [-> _].
    + intros k n' e' Hk He'.
      destruct (decide (k < length pre)%nat) as [Hlt|Hge].
      * rewrite lookup_app_l in Hk by done.
        rewrite lookup_app_l in He' by lia.
        rewrite fmap_app. apply attached_extend; [rewrite length_fmap; lia|].
        by apply Hatt.
      * assert (k = length pre) as ->.
        { apply lookup_lt_Some in Hk. rewrite length_app in Hk. simpl in Hk. lia. }
        rewrite list_lookup_middle in Hk by done.
        rewrite list_lookup_middle in He' by done. simplify_eq.
        rewrite fmap_app. apply attached_extend; [by rewrite length_fmap|done].
    + by rewrite fmap_app.
    + exists elems', root'. rewrite <- app_assoc in Ht', Ha'. simpl in Ht', Ha'.
      split; [cbn [for_each]; rewrite Hstep; exact Hrun|]. split; [done|]. split; [done|].
      intros Hnone. destruct (Hr' Hnone) as [H1 Hall].
      destruct (Hroot1 H1) as [H0 Hn0]. split; [done|]. by constructor.
Qed.

(** When every node is a root or comes after a node labelled with its
    parent label, [post] reaches the end of its loop having made one element
    per node, tagged with the node's label: a node with parent label ["0"]
    is a new, textless root, and any other node is attached to the last
    element before it whose tag is the node's parent label, with the node's
    text under the 'wagner' algorithm. *)
Theorem post_nearest_parent (algorithm : string) (arr : list Node)
    (Hne : arr <> []) (Hpar : parented [] arr) :
  exists (elems : list XmlElement) (root : nat),
    post_elements algorithm arr = Ret (elems, root)
    /\ xtag <$> elems = label <$> arr
    /\ forall k n e, arr !! k = Some n -> elems !! k = Some e ->
                     attached algorithm (label <$> arr) k n e.
Proof.
  destruct (post_loop_attached algorithm arr [] [] None) as
    (elems & root' & Hrun & Htags & Hatt & Hroot); [done|done|done|].
  unfold post_elements. simpl in Hrun. rewrite Hrun. simpl.
  destruct root' as [root|].
  - exists elems, root. done.
  - destruct (Hroot eq_refl) as [_ Hall].
    destruct arr as [|n arr]; [done|].
    apply Forall_cons in Hall as [Hn _]. destruct Hpar as [[?|Hin] _]; [done|].
    by apply elem_of_nil in Hin.
Qed.

Lemma post_nearest_parent_witness :
  exists (elems : list XmlElement) (root : nat),
    post_elements "wagner" scenario_target = Ret (elems, root)
    /\ xtag <$> elems = label <$> scenario_target
    /\ forall k n e, scenario_target !! k = Some n -> elems !! k = Some e ->
                     attached "wagner" (label <$> scenario_target) k n e.
Proof.
  apply (post_nearest_parent "wagner" scenario_target); [discriminate|].
  simpl. repeat split; (by left) || (right; apply list_elem_of_In; simpl; auto).
Defined.

(** [post] fails on an empty node list, where [root] is never bound, with
    [UnboundLocalError], and on a list in which some node, not a root, comes
    before any node labelled with its parent label, with [IndexError]. *)
Theorem post_failures (algorithm : string) (pre rest : list Node) (n : Node)
    (Hpre : parented [] pre) (Hroot : parentLabel n <> "0")
    (Hnone : Tag (parentLabel n) ∉ label <$> pre) :
  post_elements algorithm [] = Exc UnboundLocalError
  /\ post_elements algorithm (pre ++ n :: rest) = Exc IndexError.
Proof.
  split; [done|].
  destruct (post_loop_attached algorithm pre [] [] None) as
    (elems & root' & Hrun & Htags & _); [done|done|done|].
  unfold post_elements. rewrite for_each_app. simpl in Hrun. rewrite Hrun.
  cbn [mbind Res_bind res_bind for_each].
  rewrite post_step_orphan; [done|done|]. by rewrite Htags.
Qed.

Lemma post_failures_witness :
  post_elements "nierman" [] = Exc UnboundLocalError
  /\ post_elements "nierman" ([node_a] ++ node_b_end :: [node_b]) = Exc IndexError.
Proof.
  apply (post_failures "nierman" [node_a] [node_b] node_b_end).
  - simpl. split; [by left|done].
  - discriminate.
  - simpl. intros Hin. apply list_elem_of_singleton in Hin. discriminate.
Defined.

Lemma parented_mono (l : list Node) :
  forall seen seen' : list Label,
    (forall t, t ∈ seen -> t ∈ seen') -> parented seen l -> parented seen' l.
Proof.
  induction l as [|n l IH]; intros seen seen' Hsub; simpl; [done|].
  intros [Hn Hl]. split.
  - destruct Hn; [by left|right; by apply Hsub].
  - eapply IH; [|exact Hl]. intros t Ht.
    apply elem_of_app in Ht as [?|?]; apply elem_of_app; [left; by apply Hsub|by right].
Qed.

Lemma parented_app (l1 l2 : list Node) :
  forall seen : list Label,
    parented seen l1 -> parented (seen ++ (label <$> l1)) l2 ->
    parented seen (l1 ++ l2).
Proof.
  induction l1 as [|n l1 IH]; intros seen; simpl.
  - by rewrite app_nil_r.
  - intros [Hn Hl] H2. split; [done|]. apply IH; [done|].
    by rewrite <- app_assoc.
Qed.

Lemma parented_same_parent (t : string) (l : list Node) :
  forall seen : list Label,
    Tag t ∈ seen -> Forall (fun n => parentLabel n = t) l -> parented seen l.
Proof.
  induction l as [|n l IH]; intros seen Hin Hall; simpl; [done|].
  apply Forall_cons in Hall as [Hn Hall]. split.
  - right. by rewrite Hn.
  - apply IH; [|done]. apply elem_of_app. by left.
Qed.

(** In the tree of a document every node but the first comes after a node
    labelled with its parent label. *)
Lemma process_element_parented (algorithm : string) (include_attributes : bool)
    (e : Element) :
  forall (seen : list Label) (parent_tag : string) (d : Z),
    parent_tag = "0" \/ Tag parent_tag ∈ seen ->
    parented seen (process_element algorithm include_attributes e parent_tag d).
Proof.
  induction e as [tag etext attrib children IH] using Element_ind_strong.
  intros seen parent_tag d Hp. rewrite process_element_eq.
  cbn [app parented label]. split; [done|].
  assert (Hseen : Tag tag ∈ seen ++ [Tag tag]) by (apply elem_of_app; right; by left).
  revert Hseen. generalize (seen ++ [Tag tag]). intros seen1 Hseen.
  apply parented_app.
  { destruct (_ && _); [|done]. apply (parented_same_parent tag); [done|].
    apply Forall_fmap, Forall_true. done. }
  match goal with |- parented ?S _ => assert (Hseen2 : Tag tag ∈ S) end.
  { apply elem_of_app. by left. }
  revert Hseen2.
  match goal with |- _ ∈ ?S -> _ => generalize S end.
  intros seen2 Hseen2.
  apply parented_app.
  - clear -IH Hseen2. revert seen2 Hseen2.
    induction IH as [|c cs Hc _ IHcs]; intros seen2 Hseen2; [done|].
    cbn [mbind list_bind]. apply parented_app.
    + apply Hc. by right.
    + apply IHcs. apply elem_of_app. by left.
  - destruct (list_truthy children); [done|].
    apply (parented_same_parent tag); [apply elem_of_app; by left|].
    by repeat constructor.
Qed.

(** Serializing the tree of a document: whatever the document and the
    options, [post] reaches the end of its loop with one element per node of
    the tree, tagged in order with the labels of the nodes, so that
    attribute nodes and terminal markers come back as elements of their
    own; their number is that of the elements of the document plus its
    attributes (when included) plus its childless elements. *)
Theorem post_on_document (root : Element) (algorithm algorithm' : string)
    (include_attributes : bool) :
  exists (elems : list XmlElement) (r : nat),
    post_elements algorithm' (preprocess_xml root algorithm include_attributes)
    = Ret (elems, r)
    /\ xtag <$> elems = label <$> preprocess_xml root algorithm include_attributes
    /\ length elems
       = (count_elements root
          + (if include_attributes then count_attributes root else 0)
          + count_childless root)%nat.
Proof.
  assert (Hne : preprocess_xml root algorithm include_attributes <> []).
  { unfold preprocess_xml.
    destruct (process_element_shape algorithm include_attributes root "0" 0%Z)
      as (first & rest & -> & _). done. }
  assert (Hpar : parented [] (preprocess_xml root algorithm include_attributes)).
  { apply process_element_parented. by left. }
  destruct (post_loop_attached algorithm'
              (preprocess_xml root algorithm include_attributes) [] [] None)
    as (elems & root' & Hrun & Htags & _ & Hroot); [done|done|done|].
  unfold post_elements. simpl in Hrun. rewrite Hrun. simpl.
  destruct root' as [r|].
  - exists elems, r. split; [done|]. split; [done|].
    apply (f_equal length) in Htags. rewrite !length_fmap in Htags.
    rewrite Htags. unfold preprocess_xml. apply process_element_length.
  - destruct (Hroot eq_refl) as [_ Hall].
    destruct (preprocess_xml root algorithm include_attributes) as [|n arr] eqn:E; [done|].
    apply Forall_cons in Hall as [Hn _]. destruct Hpar as [[?|Hin] _]; [done|].
    by apply elem_of_nil in Hin.
Qed.
